(** * Keyword search over a corpus of text files (multiprocess.py)

    A shallow embedding of [build_shift_table], [bm_search],
    [search_keywords_in_files] and [multiprocessing_search], and the
    properties of the search engine proved (or refuted) on it.

    Python values are modelled as follows.
    - A [str] is a list of characters; the character type is any countable
      type (Unicode code points in Python, [ascii] in the examples below).
    - A [dict] is a [gmap]; a [defaultdict(list)] is a [gmap] to lists where
      a missing key reads as the empty list.
    - An exception is a value of [exn]; a computation that may raise, or may
      fail to terminate, returns an [outcome].
    - The file system is a function from paths to what reading the file
      gives. *)

From Stdlib Require Import Ascii String.
From stdpp Require Import base option list gmap strings.

Set Default Proof Using "Type".

(** Closes an equation between closed terms by evaluating its left-hand side. *)
Ltac evaluate :=
  lazymatch goal with
  | |- @eq ?T _ ?r => vm_cast_no_check (@eq_refl T r)
  end.

(** ** Exceptions and outcomes *)

(** The exceptions the program can meet.  All of them derive from Python's
    [Exception]; [FileNotFoundError] is the one the worker names. *)
Inductive exn : Type :=
  | FileNotFoundError
  | PermissionError
  | UnicodeDecodeError
  | IndexError
  | ZeroDivisionError.

(** What running a piece of the program gives: a value, a raised exception,
    or [Diverge] when a [while] loop has used up its fuel. *)
Inductive outcome (A : Type) : Type :=
  | Return (a : A)
  | Raise (e : exn)
  | Diverge.
Arguments Return {A} a.
Arguments Raise {A} e.
Arguments Diverge {A}.

#[global] Instance outcome_ret : MRet outcome := @Return.
#[global] Instance outcome_bind : MBind outcome := λ A B f m,
  match m with
  | Return a => f a
  | Raise e => Raise e
  | Diverge => Diverge
  end.

(** A [for] loop whose body may raise: the loop stops at the first body
    that does not return. *)
Fixpoint for_each {A S : Type} (body : S → A → outcome S) (s : S) (l : list A)
  : outcome S :=
  match l with
  | [] => Return s
  | x :: l' => s' ← body s x; for_each body s' l'
  end.

(** [enumerate(l)]: the elements of [l] paired with their indices. *)
Definition enumerate {A : Type} (l : list A) : list (nat * A) :=
  zip (seq 0 (length l)) l.

(** [l[start:end]] for non-negative [start] and [end]; an out-of-range
    bound is clamped, and the slice is empty when [end <= start]. *)
Definition slice {A : Type} (l : list A) (start_index end_index : nat) : list A :=
  take (end_index - start_index) (drop start_index l).

(** What opening and reading a file to its end gives: its decoded text, or
    the exception raised on the way. *)
Inductive file_state (char : Type) : Type :=
  | Readable (content : list char)
  | Unreadable (e : exn).
Arguments Readable {char} content.
Arguments Unreadable {char} e.

Section Search.

Context {char : Type} `{Countable char}.

Abbreviation str := (list char).

(** [s[i]] for a non-negative index. *)
Definition index (s : str) (i : nat) : outcome char :=
  match s !! i with
  | Some c => Return c
  | None => Raise IndexError
  end.

(** ** build_shift_table *)

(** [table.setdefault(key, value)]: sets the key only when it is absent. *)
Definition setdefault (key : char) (value : nat) (table : gmap char nat)
  : gmap char nat :=
  match table !! key with
  | Some _ => table
  | None => <[key := value]> table
  end.

(** The [for index, char in enumerate(pattern[:-1])] loop. *)
Definition fill_table (length : nat) (prefix : str) : gmap char nat :=
  fold_left (λ table '(index, char), <[char := length - index - 1]> table)
            (enumerate prefix) ∅.

(** [pattern[-1]] raises [IndexError] on the empty string, after the loop
    over [pattern[:-1]] (which is empty then) has run. *)
Definition build_shift_table (pattern : str) : outcome (gmap char nat) :=
  let length := length pattern in
  let table := fill_table length (take (length - 1) pattern) in
  match last pattern with
  | Some last_char => Return (setdefault last_char length table)
  | None => Raise IndexError
  end.

(** ** bm_search *)

(** The file system the program runs on. *)
Variable fs : str → file_state char.

(** [f.read(size)] on the text that is left, with the text left after it:
    up to [size] characters, or all that is left when [size] is negative. *)
Definition read (size : Z) (rest : str) : str * str :=
  if decide (size < 0)%Z then (rest, [])
  else (take (Z.to_nat size) rest, drop (Z.to_nat size) rest).

(** The successive [f.read(buffer_size)] calls of [read_file_in_chunks] on
    the text that is left: the loop stops at the first empty read.
    [buffer_size] is a Python integer; [fuel] bounds the number of
    reads. *)
Fixpoint read_loop (fuel : nat) (buffer_size : Z) (rest : str) : list str :=
  match fuel with
  | 0 => []
  | S fuel' =>
      let (buffer, rest') := read buffer_size rest in
      match buffer with
      | [] => []
      | _ :: _ => buffer :: read_loop fuel' buffer_size rest'
      end
  end.

(** All the chunks of a text: one read more than the text has characters
    is always enough (see [read_all_concat]). *)
Definition read_all (buffer_size : Z) (content : str) : list str :=
  read_loop (S (length content)) buffer_size content.

(** The chunks the generator yields.  The [for] loop of [bm_search] runs
    the generator to its end, and an exception raised by [open] or by any
    [read] leaves [bm_search] with its [result_dict] lost, so the model
    raises before the first chunk. *)
Definition read_file_in_chunks (file_path : str) (buffer_size : Z)
  : outcome (list str) :=
  match fs file_path with
  | Readable content => Return (read_all buffer_size content)
  | Unreadable e => Raise e
  end.

(** [d[key].append(value)] on a [defaultdict(list)]. *)
Definition dict_append (key : str) (value : str) (d : gmap str (list str))
  : gmap str (list str) :=
  <[key := default [] (d !! key) ++ [value]]> d.

(** [d[key].extend(values)] on a [defaultdict(list)]. *)
Definition dict_extend (key : str) (values : list str) (d : gmap str (list str))
  : gmap str (list str) :=
  <[key := default [] (d !! key) ++ values]> d.

(** The inner loop [while j >= 0 and chunk[i + j] == pattern[j]: j -= 1],
    entered with [j = k - 1]; the result is [j + 1] at the exit, so [0]
    stands for [j < 0]. *)
Fixpoint compare_right (chunk pattern : str) (i k : nat) : outcome nat :=
  match k with
  | 0 => Return 0
  | S j =>
      a ← index chunk (i + j);
      b ← index pattern j;
      if decide (a = b) then compare_right chunk pattern i j else Return (S j)
  end.

(** The loop [while i <= len(chunk) - len(pattern)], from cursor [i]; the
    result tells whether the loop was left through [break], that is whether
    the file was appended.  The comparison is over Python's integers, where
    it reads [i + len(pattern) <= len(chunk)]. *)
Fixpoint scan_loop (fuel : nat) (shift_table : gmap char nat)
    (chunk pattern : str) (i : nat) : outcome bool :=
  match fuel with
  | 0 => Diverge
  | S fuel' =>
      if decide (i + length pattern ≤ length chunk) then
        k ← compare_right chunk pattern i (length pattern);
        if decide (k = 0) then Return true
        else
          c ← index chunk (i + length pattern - 1);
          scan_loop fuel' shift_table chunk pattern
                    (i + default (length pattern) (shift_table !! c))
      else Return false
  end.

(** The scan of one chunk, from [i = 0]. *)
Definition scan_chunk (shift_table : gmap char nat) (chunk pattern : str)
  : outcome bool :=
  scan_loop (S (length chunk)) shift_table chunk pattern 0.

(** The body of [for chunk in read_file_in_chunks(...)]; [str(file)] is
    [file], a path being a string. *)
Definition chunk_body (shift_table : gmap char nat) (file pattern : str)
    (result_dict : gmap str (list str)) (chunk : str)
  : outcome (gmap str (list str)) :=
  found ← scan_chunk shift_table chunk pattern;
  Return (if found : bool then dict_append pattern file result_dict
          else result_dict).

(** The body of [for pattern in patterns_list]. *)
Definition pattern_body (file : str) (buffer_size : Z)
    (result_dict : gmap str (list str)) (pattern : str)
  : outcome (gmap str (list str)) :=
  shift_table ← build_shift_table pattern;
  chunks ← read_file_in_chunks file buffer_size;
  for_each (chunk_body shift_table file pattern) result_dict chunks.

Definition bm_search (file : str) (patterns_list : list str) (buffer_size : Z)
  : outcome (gmap str (list str)) :=
  for_each (pattern_body file buffer_size) ∅ patterns_list.

(** ** search_keywords_in_files *)

(** [for keyword, paths in source.items(): target[keyword].extend(paths)].
    Each key of [source] is met once and extends its own list, so the
    order in which the keys are met does not show in the result. *)
Definition merge_into (target source : gmap str (list str))
  : gmap str (list str) :=
  map_fold (λ keyword paths acc, dict_extend keyword paths acc) target source.

(** The body of [for file_path in files]: the [try] with its two handlers.
    Both handlers only log, and every exception of [exn] is an
    [Exception], so the second handler takes all the others. *)
Definition file_body (keywords : list str) (buffer_size : Z)
    (results : gmap str (list str)) (file_path : str)
  : outcome (gmap str (list str)) :=
  match bm_search file_path keywords buffer_size with
  | Return search_results => Return (merge_into results search_results)
  | Raise FileNotFoundError => Return results
  | Raise _ => Return results
  | Diverge => Diverge
  end.

(** The worker; its result is what it puts on the queue. *)
Definition search_keywords_in_files (files : list str) (keywords : list str)
    (buffer_size : Z) : outcome (gmap str (list str)) :=
  for_each (file_body keywords buffer_size) ∅ files.

(** ** multiprocessing_search *)

(** [cpu_count()]. *)
Variable cpu_count : nat.

(** The slices handed to the processes, in the order in which the processes
    are started.  [num_processes] is a count, so a [nat];
    [len(files) // 0] raises. *)
Definition process_slices (files : list str) (num_processes : nat)
  : outcome (list (list str)) :=
  if decide (num_processes = 0) then Raise ZeroDivisionError
  else
    let chunk_size := length files `div` num_processes in
    Return (map (λ i,
              let start_index := i * chunk_size in
              let end_index :=
                if decide (i ≠ num_processes - 1) then (i + 1) * chunk_size
                else length files in
              slice files start_index end_index)
            (seq 0 num_processes)).

(** The loop that empties the queue. *)
Definition drain (queue : list (gmap str (list str))) : gmap str (list str) :=
  fold_left merge_into queue ∅.

(** The queue.  A result put on the queue is pickled and written to the
    pipe of the queue: [pickled_size] is the number of bytes a result
    takes there, and [pipe_capacity] the number of bytes the pipe holds
    while nothing reads it. *)
Variable pickled_size : gmap str (list str) → nat.
Variable pipe_capacity : nat.

(** The processes, in the order in which they are started: each runs the
    worker on its slice and puts its result on the queue. *)
Definition start_processes (slices : list (list str)) (keywords : list str)
    (buffer_size : Z) : outcome (list (gmap str (list str))) :=
  for_each (λ done process_files,
              r ← search_keywords_in_files process_files keywords buffer_size;
              Return (done ++ [r]))
           [] slices.

(** The loop [for process in processes: process.join()].  A process ends
    only when its result is written to the pipe, and the coordinator reads
    the queue only after this loop; so the loop ends when the results of
    all the processes fit in the pipe together, and blocks for ever
    otherwise. *)
Definition join_all (partials : list (gmap str (list str)))
  : outcome (list (gmap str (list str))) :=
  if decide (sum_list (pickled_size <$> partials) ≤ pipe_capacity)
  then Return partials
  else Diverge.

(** The processes from their start to the end of the joins. *)
Definition run_processes (slices : list (list str)) (keywords : list str)
    (buffer_size : Z) : outcome (list (gmap str (list str))) :=
  partials ← start_processes slices keywords buffer_size;
  join_all partials.

(** [multiprocessing_search] returns [final_results] after starting one
    process per element of [spawned]: the results reach the queue in the
    order in which the processes finish, which is any order. *)
Definition multiprocessing_search (files : list str) (keywords : list str)
    (num_processes : option nat) (buffer_size : Z)
    (spawned : list (list str)) (final_results : gmap str (list str)) : Prop :=
  ∃ partials queue,
    process_slices files (default cpu_count num_processes) = Return spawned ∧
    run_processes spawned keywords buffer_size = Return partials ∧
    queue ≡ₚ partials ∧
    final_results = drain queue.

End Search.

(** ** get_files_from_directory *)

(** What [os.listdir] gives for a directory: the names of its entries, or
    the exception raised. *)
Inductive listing (char : Type) : Type :=
  | Entries (names : list (list char))
  | NotListed (e : exn).
Arguments Entries {char} names.
Arguments NotListed {char} e.

Section Discovery.

Context {char : Type} `{EqDecision char}.

(** The path separator, ['/']. *)
Variable sep : char.

(** The directories of the file system. *)
Variable listdir : list char → listing char.

(** [s.startswith(prefix)] and [s.endswith(suffix)]. *)
Definition startswith (s prefix : list char) : bool :=
  bool_decide (prefix `prefix_of` s).
Definition endswith (s suffix : list char) : bool :=
  bool_decide (suffix `suffix_of` s).

(** [os.path.join(a, b)] as [posixpath] has it for two components: an
    absolute [b] replaces [a], otherwise [b] is appended, after a separator
    unless [a] is empty or already ends with one. *)
Definition path_join (a b : list char) : list char :=
  if startswith b [sep] then b
  else if bool_decide (a = []) || endswith a [sep] then a ++ b
  else a ++ sep :: b.

(** The list comprehension inside the [try], and the two handlers, each of
    which logs and returns the empty list. *)
Definition get_files_from_directory (directory extension : list char)
  : list (list char) :=
  match listdir directory with
  | Entries names =>
      map (path_join directory)
          (filter (λ f, endswith f extension = true) names)
  | NotListed FileNotFoundError => []
  | NotListed _ => []
  end.

End Discovery.

(** The hits of one file as the worker takes them: the result of
    [bm_search], or nothing when the search raised. *)
Definition file_hits `{Countable char} (fs : list char → file_state char)
    (keywords : list (list char)) (buffer_size : Z) (file_path : list char)
  : gmap (list char) (list (list char)) :=
  match bm_search fs file_path keywords buffer_size with
  | Return search_results => search_results
  | _ => ∅
  end.

(** ** What the properties are stated with *)

Section Notions.

Context {char : Type}.

(** [pattern] occurs in [buffer] as a contiguous substring. *)
Definition substring (pattern buffer : list char) : Prop :=
  ∃ before after, buffer = before ++ pattern ++ after.

(** [pattern] occurs in [buffer] at offset [i]. *)
Definition occurs_at (pattern buffer : list char) (i : nat) : Prop :=
  ∀ j, j < length pattern → buffer !! (i + j) = pattern !! j.

(** The shift the scan takes on character [c]: [shift_table.get(c, L)]. *)
Definition shift_of `{Countable char} (shift_table : gmap char nat)
    (pattern : list char) (c : char) : nat :=
  default (length pattern) (shift_table !! c).

(** A table whose shifts skip no occurrence: a shift is at least one and
    at most the length of the pattern, and the character does not occur in
    the pattern at any of the positions a shorter shift would align it
    with. *)
Definition safe_table `{Countable char} (pattern : list char)
    (shift_table : gmap char nat) : Prop :=
  ∀ c, 1 ≤ shift_of shift_table pattern c ≤ length pattern ∧
       ∀ k, 1 ≤ k < shift_of shift_table pattern c →
            pattern !! (length pattern - 1 - k) ≠ Some c.

(** Brute-force substring search: try every offset. *)
Definition substringb `{EqDecision char} (pattern buffer : list char) : bool :=
  existsb (λ i, bool_decide (take (length pattern) (drop i buffer) = pattern))
          (seq 0 (S (length buffer))).

(** The number of chunks in which the pattern occurs. *)
Definition hits `{EqDecision char} (pattern : list char)
    (chunks : list (list char)) : nat :=
  length (filter (λ chunk, substringb pattern chunk = true) chunks).

(** The number of times a keyword is listed. *)
Definition occurrences `{EqDecision char} (keyword : list char)
    (keywords : list (list char)) : nat :=
  length (filter (λ k, k = keyword) keywords).

End Notions.

(** The characters of a string literal. *)
Definition text (s : string) : list ascii := list_ascii_of_string s.

(** A small corpus: two files of prose, a file in which a keyword lies
    across the boundary of two eight-character chunks, a file in which a
    keyword occurs in two chunks, and no other file. *)
Definition corpus (path : list ascii) : file_state ascii :=
  if decide (path = text "a.txt") then Readable (text "the book is here")
  else if decide (path = text "b.txt") then Readable (text "summer is great")
  else if decide (path = text "c.txt") then Readable (text "xxxxxxhelloxxxxx")
  else if decide (path = text "d.txt") then Readable (text "abab")
  else Unreadable FileNotFoundError.

(** ** The script *)



(** A size for pickled results: some bytes for the mapping and some for
    each of its keywords. *)
Definition pickle (d : gmap (list ascii) (list (list ascii))) : nat :=
  10 + 10 * size d.

(** A directory of four entries, one of which is no text file. *)
Definition shelf (directory : list ascii) : listing ascii :=
  if decide (directory = text "./faker_files")
  then Entries [text "a.txt"; text "notes.md"; text "b.txt"; text "c.txt"]
  else NotListed FileNotFoundError.


(** * Properties *)

Section Properties.

Context {char : Type} `{Countable char}.

Abbreviation str := (list char).

(** ** The shift table *)

Lemma enumerate_snoc {A : Type} (l : list A) (x : A) :
  enumerate (l ++ [x]) = enumerate l ++ [(length l, x)].
Proof.
  unfold enumerate. rewrite length_app. simpl.
  rewrite seq_app. simpl.
  rewrite zip_with_app by (by rewrite length_seq).
  done.
Qed.

Lemma fill_table_nil (n : nat) : fill_table n ([] : str) = ∅.
Proof. done. Qed.

Lemma fill_table_snoc (n : nat) (prefix : str) (c : char) :
  fill_table n (prefix ++ [c])
  = <[c := n - length prefix - 1]> (fill_table n prefix).
Proof.
  unfold fill_table. rewrite enumerate_snoc, fold_left_app. done.
Qed.

(** After the loop a character has the shift of its right-most index. *)
Lemma fill_table_Some (n : nat) (prefix : str) (c : char) (v : nat) :
  fill_table n prefix !! c = Some v ↔
  ∃ i, prefix !! i = Some c ∧ (∀ j, i < j → prefix !! j ≠ Some c) ∧
       v = n - i - 1.
Proof.
  revert v. induction prefix as [|x prefix IH] using rev_ind; intros v.
  - rewrite fill_table_nil, lookup_empty. split; [done|].
    intros (i & Hi & _). by rewrite lookup_nil in Hi.
  - rewrite fill_table_snoc. destruct (decide (x = c)) as [->|Hne].
    + rewrite lookup_insert_eq. split.
      * intros [= <-]. exists (length prefix). split_and!; [|..|done].
        -- by rewrite list_lookup_middle.
        -- intros j Hj. rewrite lookup_ge_None_2; [done|].
           rewrite length_app. simpl. lia.
      * intros (i & Hi & Hmax & ->).
        destruct (decide (i = length prefix)) as [->|Hi']; [done|].
        exfalso. apply lookup_lt_Some in Hi as Hlt.
        rewrite length_app in Hlt. simpl in Hlt.
        apply (Hmax (length prefix)); [lia|].
        by rewrite list_lookup_middle.
    + rewrite lookup_insert_ne by done. rewrite IH. split.
      * intros (i & Hi & Hmax & ->). apply lookup_lt_Some in Hi as Hlt.
        exists i. split_and!; [|..|done].
        -- by rewrite lookup_app_l.
        -- intros j Hj. destruct (decide (j < length prefix)).
           ++ rewrite lookup_app_l by done. by apply Hmax.
           ++ destruct (decide (j = length prefix)) as [->|].
              ** rewrite list_lookup_middle by done. congruence.
              ** rewrite lookup_ge_None_2; [done|].
                 rewrite length_app. simpl. lia.
      * intros (i & Hi & Hmax & ->).
        apply lookup_lt_Some in Hi as Hlt. rewrite length_app in Hlt.
        simpl in Hlt.
        destruct (decide (i = length prefix)) as [->|Hi'].
        { rewrite list_lookup_middle in Hi by done. congruence. }
        exists i. split_and!; [|..|done].
        -- rewrite lookup_app_l in Hi by lia. done.
        -- intros j Hj Hj'. apply (Hmax j Hj).
           apply lookup_lt_Some in Hj' as Hlt'. by rewrite lookup_app_l.
Qed.

Lemma fill_table_None (n : nat) (prefix : str) (c : char) :
  fill_table n prefix !! c = None ↔ c ∉ prefix.
Proof.
  induction prefix as [|x prefix IH] using rev_ind.
  - rewrite fill_table_nil, lookup_empty. split; [|done].
    intros _. apply not_elem_of_nil.
  - rewrite fill_table_snoc, not_elem_of_app, <- IH.
    destruct (decide (x = c)) as [->|Hne].
    + rewrite lookup_insert_eq. split; [done|].
      intros [_ Hc]. exfalso. apply Hc. by apply list_elem_of_singleton.
    + rewrite lookup_insert_ne by done. split; [|tauto].
      intros Hn. split; [done|]. rewrite list_elem_of_singleton. congruence.
Qed.

Lemma lookup_setdefault (key : char) (value : nat) (table : gmap char nat)
    (c : char) :
  setdefault key value table !! c =
  match table !! c with
  | Some v => Some v
  | None => if decide (key = c) then Some value else None
  end.
Proof.
  unfold setdefault. destruct (table !! key) as [w|] eqn:Hkey.
  - destruct (table !! c) eqn:Hc; [done|].
    case_decide; [congruence|done].
  - rewrite lookup_insert. case_decide as Hd.
    + subst. by rewrite Hkey.
    + by destruct (table !! c).
Qed.

(** A non-empty pattern is its prefix followed by its last character, and
    the table is built from the two. *)
Lemma build_shift_table_snoc (prefix : str) (x : char) :
  build_shift_table (prefix ++ [x])
  = Return (setdefault x (S (length prefix))
              (fill_table (S (length prefix)) prefix)).
Proof.
  unfold build_shift_table. rewrite last_snoc, length_app. simpl.
  replace (length prefix + 1 - 1) with (length prefix) by lia.
  rewrite take_app_length. by replace (length prefix + 1) with (S (length prefix)) by lia.
Qed.

Lemma build_shift_table_nil : build_shift_table ([] : str) = Raise IndexError.
Proof. done. Qed.

Lemma nonempty_snoc (pattern : str) :
  pattern ≠ [] → ∃ prefix x, pattern = prefix ++ [x].
Proof.
  destruct pattern as [|x prefix] using rev_ind; [done|]. eauto.
Qed.

(** C4.  For a non-empty pattern of length [L], [build_shift_table] returns
    a table whose keys are exactly the characters of the pattern; every
    shift lies in [1, L]; a character that occurs before the last position
    has shift [L - i - 1] for its right-most such index [i]; and the last
    character has shift [L] exactly when it does not occur earlier. *)
Theorem build_shift_table_spec (pattern : str) :
  pattern ≠ [] →
  ∃ table,
    build_shift_table pattern = Return table ∧
    dom table = list_to_set pattern ∧
    (∀ c v, table !! c = Some v → 1 ≤ v ≤ length pattern) ∧
    (∀ c i, i < length pattern - 1 → pattern !! i = Some c →
       (∀ j, i < j < length pattern - 1 → pattern !! j ≠ Some c) →
       table !! c = Some (length pattern - i - 1)) ∧
    (∀ c, last pattern = Some c →
       (table !! c = Some (length pattern) ↔
        c ∉ take (length pattern - 1) pattern)).
Proof.
  intros Hne. destruct (nonempty_snoc pattern Hne) as (prefix & x & ->).
  eexists. split; [apply build_shift_table_snoc|].
  rewrite length_app. simpl.
  replace (length prefix + 1 - 1) with (length prefix) by lia.
  replace (length prefix + 1) with (S (length prefix)) by lia.
  rewrite take_app_length.
  assert (Hval : ∀ c v, fill_table (S (length prefix)) prefix !! c = Some v →
                        1 ≤ v ≤ length prefix).
  { intros c v (i & Hi & _ & ->)%fill_table_Some.
    apply lookup_lt_Some in Hi. lia. }
  split_and!.
  - apply set_eq. intros c.
    rewrite elem_of_dom, lookup_setdefault, elem_of_list_to_set, elem_of_app,
      list_elem_of_singleton.
    destruct (fill_table _ prefix !! c) as [v|] eqn:Hc.
    + split; [|by eauto]. intros _. left.
      destruct (decide (c ∈ prefix)) as [|Hn]; [done|].
      apply (fill_table_None (S (length prefix))) in Hn. congruence.
    + apply fill_table_None in Hc. case_decide as Hd.
      * subst. split; [by right|by eauto].
      * split; [by intros [? [=]]|]. intros [?|?]; [done|congruence].
  - intros c v. rewrite lookup_setdefault.
    destruct (fill_table _ prefix !! c) as [w|] eqn:Hc.
    + intros [= <-]. apply Hval in Hc. lia.
    + case_decide; [|done]. intros [= <-]. lia.
  - intros c i Hi Hc Hmax. rewrite lookup_app_l in Hc by done.
    rewrite lookup_setdefault.
    assert (Hfill : fill_table (S (length prefix)) prefix !! c
                    = Some (S (length prefix) - i - 1)).
    { apply fill_table_Some. exists i. split_and!; [done| |done].
      intros j Hj Hj'. apply lookup_lt_Some in Hj' as Hlt.
      apply (Hmax j); [lia|]. by rewrite lookup_app_l. }
    by rewrite Hfill.
  - intros c. rewrite last_snoc. intros [= <-].
    rewrite lookup_setdefault, <- (fill_table_None (S (length prefix))).
    destruct (fill_table _ prefix !! x) as [w|] eqn:Hx.
    + split; [|done]. intros [= ->]. apply Hval in Hx. lia.
    + by rewrite decide_True.
Qed.


(** ** The scan of one chunk *)

Lemma substring_occurs_at (pattern buffer : str) :
  substring pattern buffer ↔ ∃ i, occurs_at pattern buffer i.
Proof.
  split.
  - intros (before & after & ->). exists (length before). intros j Hj.
    rewrite lookup_app_r by lia.
    replace (length before + j - length before) with j by lia.
    by rewrite lookup_app_l.
  - intros (i & Hocc).
    exists (take i buffer), (drop (length pattern) (drop i buffer)).
    rewrite <- (take_drop i buffer) at 1. f_equal.
    rewrite <- (take_drop (length pattern) (drop i buffer)) at 1. f_equal.
    apply list_eq. intros j. destruct (decide (j < length pattern)).
    + rewrite lookup_take_lt, lookup_drop by done. by apply Hocc.
    + rewrite lookup_take_ge, lookup_ge_None_2 by lia. done.
Qed.

(** Brute-force search finds what there is to find. *)
Lemma substringb_true (pattern buffer : str) :
  substringb pattern buffer = true ↔ substring pattern buffer.
Proof.
  unfold substringb. rewrite existsb_exists. split.
  - intros (i & _ & Hi%bool_decide_eq_true).
    exists (take i buffer), (drop (length pattern) (drop i buffer)).
    rewrite <- (take_drop i buffer) at 1. f_equal.
    by rewrite <- (take_drop (length pattern) (drop i buffer)) at 1; f_equal.
  - intros (before & after & ->). exists (length before). split.
    + apply in_seq. rewrite !length_app. lia.
    + apply bool_decide_eq_true. rewrite drop_app_length.
      apply take_app_length.
Qed.

Lemma substring_length (pattern buffer : str) :
  substring pattern buffer → length pattern ≤ length buffer.
Proof. intros (before & after & ->). rewrite !length_app. lia. Qed.

(** An occurrence lies inside the buffer. *)
Lemma occurs_at_bound (pattern buffer : str) (i : nat) :
  pattern ≠ [] → occurs_at pattern buffer i →
  i + length pattern ≤ length buffer.
Proof.
  intros Hne Hocc. destruct pattern as [|x pattern]; [done|].
  specialize (Hocc (length pattern) ltac:(simpl; lia)).
  destruct (lookup_lt_is_Some_2 (x :: pattern) (length pattern)) as [c Hc];
    [simpl; lia|].
  rewrite Hc in Hocc. apply lookup_lt_Some in Hocc. simpl. lia.
Qed.

(** The right-to-left comparison stops at the first mismatch from the
    right, and raises nothing when the window lies inside the chunk. *)
Lemma compare_right_spec (chunk pattern : str) (i k : nat) :
  i + k ≤ length chunk → k ≤ length pattern →
  ∃ k', compare_right chunk pattern i k = Return k' ∧ k' ≤ k ∧
        (∀ j, k' ≤ j < k → chunk !! (i + j) = pattern !! j) ∧
        (∀ j, k' = S j → chunk !! (i + j) ≠ pattern !! j).
Proof.
  induction k as [|j IH]; intros Hc Hp; simpl.
  - exists 0. split_and!; [done|done|intros; lia|done].
  - destruct (lookup_lt_is_Some_2 chunk (i + j)) as [a Ha]; [lia|].
    destruct (lookup_lt_is_Some_2 pattern j) as [b Hb]; [lia|].
    unfold index. rewrite Ha, Hb. simpl. case_decide as Hab.
    + destruct IH as (k' & Hk' & Hle & Heq & Hneq); [lia..|].
      exists k'. split_and!; [done|lia| |done].
      intros j' Hj'. destruct (decide (j' = j)) as [->|].
      * by rewrite Ha, Hb, Hab.
      * apply Heq. lia.
    + exists (S j). split_and!; [done|done|intros; lia|].
      intros j' [= <-]. rewrite Ha, Hb. congruence.
Qed.

Lemma compare_right_occurs (chunk pattern : str) (i : nat) :
  i + length pattern ≤ length chunk →
  ∃ k', compare_right chunk pattern i (length pattern) = Return k' ∧
        (k' = 0 ↔ occurs_at pattern chunk i).
Proof.
  intros Hi.
  destruct (compare_right_spec chunk pattern i (length pattern))
    as (k' & Hk' & Hle & Heq & Hneq); [done..|].
  exists k'. split; [done|]. split.
  - intros -> j Hj. apply Heq. lia.
  - intros Hocc. destruct k' as [|j]; [done|].
    exfalso. apply (Hneq j); [done|]. apply Hocc. lia.
Qed.

(** With shifts that skip no occurrence, the scan from cursor [i] ends,
    and ends through [break] exactly when the pattern occurs at [i] or to
    its right. *)
Lemma scan_loop_spec (shift_table : gmap char nat) (chunk pattern : str) :
  pattern ≠ [] → safe_table pattern shift_table →
  ∀ fuel i,
    1 ≤ fuel → length chunk + 2 ≤ fuel + i + length pattern →
    ∃ b, scan_loop fuel shift_table chunk pattern i = Return b ∧
         (b = true ↔ ∃ i', i ≤ i' ∧ occurs_at pattern chunk i').
Proof.
  intros Hne Hsafe. induction fuel as [|fuel IH]; intros i Hfuel Hmeasure;
    [lia|].
  assert (0 < length pattern) by (destruct pattern; [done|simpl; lia]).
  simpl. case_decide as Hin.
  - destruct (compare_right_occurs chunk pattern i Hin) as (k' & -> & Hk').
    simpl. case_decide as Hz.
    + exists true. split; [done|]. split; [|done]. intros _.
      exists i. split; [done|]. by apply Hk'.
    + destruct (lookup_lt_is_Some_2 chunk (i + length pattern - 1)) as [c Hc];
        [lia|].
      unfold index. rewrite Hc. simpl.
      destruct (Hsafe c) as [Hrange Hskip]. unfold shift_of in Hrange, Hskip.
      set (s := default (length pattern) (shift_table !! c)) in *.
      destruct (IH (i + s)) as (b & Hb & Hiff); [lia..|].
      exists b. split; [done|]. rewrite Hiff. split.
      * intros (i' & Hi' & Hocc). exists i'. split; [lia|done].
      * intros (i' & Hi' & Hocc). exists i'. split; [|done].
        destruct (decide (i + s ≤ i')); [done|]. exfalso.
        destruct (decide (i' = i)) as [->|]; [by apply Hz, Hk'|].
        apply (Hskip (i' - i)); [lia|].
        rewrite <- (Hocc (length pattern - 1 - (i' - i))) by lia.
        rewrite <- Hc. f_equal. lia.
  - exists false. split; [done|]. split; [done|].
    intros (i' & Hi' & Hocc). apply occurs_at_bound in Hocc; [lia|done].
Qed.

(** The table of [build_shift_table] skips no occurrence. *)
Lemma build_shift_table_safe (prefix : str) (x : char) :
  safe_table (prefix ++ [x])
    (setdefault x (S (length prefix)) (fill_table (S (length prefix)) prefix)).
Proof.
  intros c. unfold shift_of. rewrite length_app. simpl.
  replace (length prefix + 1) with (S (length prefix)) by lia.
  rewrite lookup_setdefault.
  destruct (fill_table _ prefix !! c) as [v|] eqn:Hc; simpl.
  - apply fill_table_Some in Hc as (i & Hi & Hmax & ->).
    apply lookup_lt_Some in Hi as Hlt. split; [lia|].
    intros k Hk. rewrite lookup_app_l by lia.
    apply Hmax. lia.
  - apply fill_table_None in Hc.
    assert (Hshift : default (S (length prefix))
              (if decide (x = c) then Some (S (length prefix)) else None)
            = S (length prefix)) by (by case_decide).
    rewrite Hshift. split; [lia|].
    intros k Hk. rewrite lookup_app_l by lia.
    intros Hk'. apply Hc. apply list_elem_of_lookup. eauto.
Qed.

(** The scan of a chunk with the table of its pattern. *)
Lemma scan_chunk_substring (chunk pattern : str) :
  pattern ≠ [] →
  ∃ table b,
    build_shift_table pattern = Return table ∧
    scan_chunk table chunk pattern = Return b ∧
    (b = true ↔ substring pattern chunk).
Proof.
  intros Hne. destruct (nonempty_snoc pattern Hne) as (prefix & x & ->).
  destruct (scan_loop_spec _ chunk (prefix ++ [x]) Hne
              (build_shift_table_safe prefix x) (S (length chunk)) 0)
    as (b & Hb & Hiff); [lia| rewrite length_app; simpl; lia |].
  eexists _, b. split_and!; [apply build_shift_table_snoc|done|].
  rewrite Hiff, substring_occurs_at. split.
  - intros (i & _ & Hocc). eauto.
  - intros (i & Hocc). exists i. split; [lia|done].
Qed.

(** C2.  For every buffer and every non-empty pattern, the right-to-left
    bad-character scan of the buffer, with the shift table built for the
    pattern, ends and reports a match if and only if the pattern occurs in
    the buffer as a contiguous substring. *)
Theorem scan_chunk_iff_substring (buffer pattern : str) :
  pattern ≠ [] →
  ∃ table found,
    build_shift_table pattern = Return table ∧
    scan_chunk table buffer pattern = Return found ∧
    (found = true ↔ substring pattern buffer) ∧
    found = substringb pattern buffer.
Proof.
  intros Hne.
  destruct (scan_chunk_substring buffer pattern Hne)
    as (table & b & Htable & Hscan & Hiff).
  exists table, b. split_and!; [done..|].
  destruct (substringb pattern buffer) eqn:Hb.
  - by apply Hiff, substringb_true.
  - destruct b; [|done].
    by rewrite <- Hb; symmetry; apply substringb_true, Hiff.
Qed.

(** ** Reading a file in chunks *)

Lemma read_negative (size : Z) (rest : str) :
  (size < 0)%Z → read size rest = (rest, []).
Proof. intros. unfold read. by rewrite decide_True. Qed.

Lemma read_nonnegative (size : Z) (rest : str) :
  (0 ≤ size)%Z →
  read size rest = (take (Z.to_nat size) rest, drop (Z.to_nat size) rest).
Proof. intros. unfold read. by rewrite decide_False by lia. Qed.

Lemma read_loop_S (fuel : nat) (buffer_size : Z) (rest : str) :
  read_loop (S fuel) buffer_size rest
  = match (read buffer_size rest).1 with
    | [] => []
    | _ :: _ => (read buffer_size rest).1
                :: read_loop fuel buffer_size (read buffer_size rest).2
    end.
Proof. simpl. by destruct (read buffer_size rest). Qed.

Lemma read_loop_nil (fuel : nat) (buffer_size : Z) :
  read_loop fuel buffer_size ([] : str) = [].
Proof.
  destruct fuel as [|fuel]; [done|]. rewrite read_loop_S. unfold read.
  case_decide; [done|]. simpl. by rewrite take_nil.
Qed.

Lemma read_loop_concat (buffer_size : Z) (fuel : nat) (content : str) :
  buffer_size ≠ 0%Z → length content ≤ fuel →
  concat (read_loop fuel buffer_size content) = content.
Proof.
  intros HB. revert content. induction fuel as [|fuel IH]; intros content Hlen.
  - destruct content; [done|simpl in Hlen; lia].
  - rewrite read_loop_S. destruct (decide (buffer_size < 0)%Z) as [Hneg|Hpos].
    + rewrite read_negative by done. simpl.
      destruct content as [|c content]; [done|].
      simpl. rewrite read_loop_nil. simpl. by rewrite app_nil_r.
    + rewrite read_nonnegative by lia. simpl.
      destruct (take (Z.to_nat buffer_size) content) as [|c buffer] eqn:Htake.
      * destruct content; [done|].
        destruct (Z.to_nat buffer_size) eqn:Hn; [lia|done].
      * simpl. rewrite IH.
        -- rewrite app_comm_cons, <- Htake. apply take_drop.
        -- rewrite length_drop.
           assert (0 < Z.to_nat buffer_size) by lia. lia.
Qed.

(** The chunks of a text, put end to end, are the text. *)
Lemma read_all_concat (buffer_size : Z) (content : str) :
  buffer_size ≠ 0%Z → concat (read_all buffer_size content) = content.
Proof. intros. apply read_loop_concat; [done|lia]. Qed.

(** No chunk is longer than the buffer, when the buffer has a size. *)
Lemma read_loop_length (buffer_size : Z) (fuel : nat) (content chunk : str) :
  (0 ≤ buffer_size)%Z →
  chunk ∈ read_loop fuel buffer_size content →
  length chunk ≤ Z.to_nat buffer_size.
Proof.
  intros HB. revert content. induction fuel as [|fuel IH]; intros content.
  - by intros ?%elem_of_nil.
  - rewrite read_loop_S, read_nonnegative by done. simpl.
    destruct (take (Z.to_nat buffer_size) content) as [|c buffer] eqn:Htake.
    + by intros ?%elem_of_nil.
    + intros [->|Hin]%elem_of_cons; [|by eapply IH].
      rewrite <- Htake, length_take. lia.
Qed.

(** A buffer that holds the whole text, or a negative size, gives one
    chunk, the text. *)
Lemma read_all_whole (buffer_size : Z) (content : str) :
  content ≠ [] → (buffer_size < 0 ∨ Z.of_nat (length content) ≤ buffer_size)%Z →
  read_all buffer_size content = [content].
Proof.
  intros Hne Hlen. unfold read_all. rewrite read_loop_S.
  destruct (decide (buffer_size < 0)%Z) as [Hneg|Hpos].
  - rewrite read_negative by done. simpl.
    destruct content as [|c content]; [done|]. by rewrite read_loop_nil.
  - rewrite read_nonnegative by lia. simpl.
    rewrite take_ge, drop_ge by lia.
    destruct content as [|c content]; [done|]. by rewrite read_loop_nil.
Qed.

Lemma read_all_nil (buffer_size : Z) : read_all buffer_size ([] : str) = [].
Proof. apply read_loop_nil. Qed.

(** ** Counting chunks and keywords *)

Lemma hits_le (pattern : str) (chunks : list str) :
  hits pattern chunks ≤ length chunks.
Proof. apply length_filter. Qed.

Lemma hits_pos (pattern : str) (chunks : list str) :
  0 < hits pattern chunks ↔ ∃ chunk, chunk ∈ chunks ∧ substring pattern chunk.
Proof.
  unfold hits. split.
  - intros Hpos.
    destruct (filter _ chunks) as [|chunk l] eqn:Hf; [simpl in Hpos; lia|].
    assert (Hin : chunk ∈ filter (λ chunk, substringb pattern chunk = true) chunks)
      by (rewrite Hf; left).
    apply list_elem_of_filter in Hin as [Hsub Hin].
    exists chunk. split; [done|]. by apply substringb_true.
  - intros (chunk & Hin & Hsub).
    assert (Hin' : chunk ∈ filter (λ chunk, substringb pattern chunk = true) chunks)
      by (apply list_elem_of_filter; split; [by apply substringb_true|done]).
    destruct (filter _ chunks); [by apply elem_of_nil in Hin'|simpl; lia].
Qed.

Lemma occurrences_pos (keyword : str) (keywords : list str) :
  0 < occurrences keyword keywords ↔ keyword ∈ keywords.
Proof.
  unfold occurrences. split.
  - intros Hpos.
    destruct (filter _ keywords) as [|k l] eqn:Hf; [simpl in Hpos; lia|].
    assert (Hin : k ∈ filter (λ k, k = keyword) keywords) by (rewrite Hf; left).
    by apply list_elem_of_filter in Hin as [-> Hin].
  - intros Hin.
    assert (Hin' : keyword ∈ filter (λ k, k = keyword) keywords)
      by (by apply list_elem_of_filter).
    destruct (filter _ keywords); [by apply elem_of_nil in Hin'|simpl; lia].
Qed.

Lemma occurrences_cons (keyword k : str) (keywords : list str) :
  occurrences keyword (k :: keywords)
  = (if decide (k = keyword) then 1 else 0) + occurrences keyword keywords.
Proof. unfold occurrences. rewrite filter_cons. by case_decide. Qed.

Lemma occurrences_NoDup (keyword : str) (keywords : list str) :
  NoDup keywords → occurrences keyword keywords ≤ 1.
Proof.
  unfold occurrences. induction 1 as [|k keywords Hnotin Hnd IH];
    [simpl; lia|].
  rewrite filter_cons. case_decide as Hk; [|done]. subst. simpl.
  destruct (filter _ keywords) as [|k' l] eqn:Hf; [done|]. exfalso.
  assert (Hin : k' ∈ filter (λ k, k = keyword) keywords) by (rewrite Hf; left).
  by apply list_elem_of_filter in Hin as [-> Hin].
Qed.


(** ** bm_search on one file *)

Variable fs : str → file_state char.

(** Appending the same file [n] times under one keyword. *)
Lemma iter_append_lookup (keyword file : str) (n : nat)
    (d : gmap str (list str)) (k : str) :
  Nat.iter n (dict_append keyword file) d !! k =
  if decide (keyword = k ∧ 0 < n)
  then Some (default [] (d !! keyword) ++ replicate n file)
  else d !! k.
Proof.
  induction n as [|n IH]; simpl.
  - case_decide as Hd; [lia|done].
  - unfold dict_append at 1. destruct (decide (keyword = k)) as [->|Hne].
    + rewrite lookup_insert_eq, decide_True by (split; [done|lia]).
      rewrite IH. f_equal. case_decide as Hd.
      * simpl. rewrite <- app_assoc. f_equal.
        by rewrite <- replicate_cons_app.
      * assert (n = 0) as -> by (destruct n; [done|]; exfalso; apply Hd; split; [done|lia]).
        done.
    + rewrite lookup_insert_ne by done. rewrite IH.
      rewrite !decide_False by (intros [? _]; done). done.
Qed.

(** The loop over the chunks appends the file once per chunk in which the
    pattern occurs. *)
Lemma chunk_loop_spec (table : gmap char nat) (file pattern : str) :
  pattern ≠ [] → build_shift_table pattern = Return table →
  ∀ chunks d,
    for_each (chunk_body table file pattern) d chunks
    = Return (Nat.iter (hits pattern chunks) (dict_append pattern file) d).
Proof.
  intros Hne Htable. induction chunks as [|chunk chunks IH]; intros d; [done|].
  destruct (scan_chunk_substring chunk pattern Hne)
    as (table' & b & Htable' & Hscan & Hiff).
  assert (table' = table) as -> by congruence.
  assert (Hbody : chunk_body table file pattern d chunk
                  = Return (if b then dict_append pattern file d else d))
    by (unfold chunk_body; by rewrite Hscan).
  simpl. rewrite Hbody. simpl. rewrite IH.
  unfold hits. rewrite filter_cons. f_equal. destruct b.
  - rewrite decide_True by (by apply substringb_true, Hiff).
    simpl. by rewrite <- Nat.iter_succ_r.
  - rewrite decide_False; [done|].
    intros Hsub%substringb_true%Hiff. done.
Qed.

Lemma pattern_body_readable (file content : str) (buffer_size : Z)
    (d : gmap str (list str)) (pattern : str) :
  fs file = Readable content → pattern ≠ [] →
  pattern_body fs file buffer_size d pattern
  = Return (Nat.iter (hits pattern (read_all buffer_size content))
              (dict_append pattern file) d).
Proof.
  intros Hfs Hne.
  destruct (scan_chunk_substring [] pattern Hne) as (table & _ & Htable & _).
  unfold pattern_body, read_file_in_chunks. rewrite Htable, Hfs. simpl.
  by apply chunk_loop_spec.
Qed.

(** The empty pattern raises before the file is opened. *)
Lemma pattern_body_empty (file : str) (buffer_size : Z)
    (d : gmap str (list str)) :
  pattern_body fs file buffer_size d [] = Raise IndexError.
Proof. done. Qed.

Lemma pattern_body_unreadable (file : str) (e : exn) (buffer_size : Z)
    (d : gmap str (list str)) (pattern : str) :
  fs file = Unreadable e → pattern ≠ [] →
  pattern_body fs file buffer_size d pattern = Raise e.
Proof.
  intros Hfs Hne.
  destruct (scan_chunk_substring [] pattern Hne) as (table & _ & Htable & _).
  unfold pattern_body, read_file_in_chunks. by rewrite Htable, Hfs.
Qed.

(** A body of the pattern loop that returns had a non-empty pattern and a
    readable file. *)
Lemma pattern_body_Return (file : str) (buffer_size : Z)
    (d d' : gmap str (list str)) (pattern : str) :
  pattern_body fs file buffer_size d pattern = Return d' →
  pattern ≠ [] ∧ ∃ content, fs file = Readable content.
Proof.
  intros Hret. destruct pattern as [|c pattern].
  { by rewrite pattern_body_empty in Hret. }
  split; [done|]. destruct (fs file) as [content|e] eqn:Hfs; [by eauto|].
  by rewrite (pattern_body_unreadable file e) in Hret.
Qed.

Lemma for_each_Return {A S : Type} (body : S → A → outcome S) (Q : A → Prop) :
  (∀ s x s', body s x = Return s' → Q x) →
  ∀ l s s', for_each body s l = Return s' → Forall Q l.
Proof.
  intros Hbody. induction l as [|x l IH]; intros s s' Hret; [done|].
  simpl in Hret. destruct (body s x) as [s1| |] eqn:Hx; [|done..].
  constructor; [by eapply Hbody|]. by eapply IH.
Qed.

(** The dictionary the pattern loop builds from [d]. *)
Lemma bm_loop_readable (file content : str) (buffer_size : Z)
    (patterns_list : list str) (d : gmap str (list str)) :
  fs file = Readable content → Forall (λ p, p ≠ []) patterns_list →
  for_each (pattern_body fs file buffer_size) d patterns_list
  = Return (fold_left
              (λ d p, Nat.iter (hits p (read_all buffer_size content))
                        (dict_append p file) d)
              patterns_list d).
Proof.
  intros Hfs Hall. revert d.
  induction Hall as [|p patterns_list Hp Hall IH]; intros d; [done|].
  simpl. rewrite (pattern_body_readable file content) by done.
  simpl. apply IH.
Qed.

Lemma bm_fold_lookup (file : str) (chunks : list str)
    (patterns_list : list str) (d : gmap str (list str)) (k : str) :
  fold_left (λ d p, Nat.iter (hits p chunks) (dict_append p file) d)
            patterns_list d !! k
  = if decide (0 < occurrences k patterns_list * hits k chunks)
    then Some (default [] (d !! k)
               ++ replicate (occurrences k patterns_list * hits k chunks) file)
    else d !! k.
Proof.
  revert d. induction patterns_list as [|p patterns_list IH]; intros d.
  - rewrite decide_False; [done|]. unfold occurrences. simpl. lia.
  - simpl. rewrite IH, occurrences_cons, !iter_append_lookup.
    set (h := hits k chunks). set (o := occurrences k patterns_list).
    destruct (decide (p = k)) as [->|Hne].
    + fold h. destruct (decide (0 < h)) as [Hh|Hh].
      * rewrite (decide_True (P := k = k ∧ 0 < h)) by done. simpl.
        rewrite (decide_True (P := 0 < (1 + o) * h)) by lia.
        destruct (decide (0 < o * h)).
        -- by rewrite <- app_assoc, <- replicate_add.
        -- do 3 f_equal. lia.
      * rewrite (decide_False (P := k = k ∧ 0 < h)) by (intros [_ ?]; done).
        replace h with 0 by lia. rewrite !Nat.mul_0_r.
        rewrite !decide_False by lia. done.
    + rewrite !(decide_False (P := p = k ∧ _)) by (intros [? _]; done).
      done.
Qed.

(** What [bm_search] returns for a readable file and non-empty keywords:
    a keyword is a key exactly when it is listed and occurs in some chunk,
    and its list holds the file once for each listing and each such
    chunk. *)
Lemma bm_search_readable (file content : str) (buffer_size : Z)
    (patterns_list : list str) :
  fs file = Readable content → Forall (λ p, p ≠ []) patterns_list →
  ∃ d, bm_search fs file patterns_list buffer_size = Return d ∧
       ∀ k, d !! k =
            let n := occurrences k patterns_list
                     * hits k (read_all buffer_size content) in
            if decide (0 < n) then Some (replicate n file) else None.
Proof.
  intros Hfs Hall. eexists. split.
  - unfold bm_search. by apply bm_loop_readable.
  - intros k. rewrite bm_fold_lookup, lookup_empty. done.
Qed.

(** A search that returns either had no keyword to look for, or had only
    non-empty keywords and a readable file. *)
Lemma bm_search_Return (file : str) (buffer_size : Z)
    (patterns_list : list str) (d : gmap str (list str)) :
  bm_search fs file patterns_list buffer_size = Return d →
  patterns_list = [] ∨
  (Forall (λ p, p ≠ []) patterns_list ∧ ∃ content, fs file = Readable content).
Proof.
  intros Hret.
  apply (for_each_Return _
           (λ p, p ≠ [] ∧ ∃ content, fs file = Readable content)) in Hret;
    [|intros s x s'; apply pattern_body_Return].
  destruct patterns_list as [|p l]; [by left|]. right.
  split.
  - eapply Forall_impl; [done|]. by intros ? [? _].
  - by apply Forall_cons in Hret as [[_ ?] _].
Qed.

Lemma bm_search_nil (file : str) (buffer_size : Z) :
  bm_search fs file [] buffer_size = Return ∅.
Proof. done. Qed.

(** The search of one file always ends. *)
Lemma bm_search_no_Diverge (file : str) (buffer_size : Z)
    (patterns_list : list str) :
  bm_search fs file patterns_list buffer_size ≠ Diverge.
Proof.
  unfold bm_search. generalize (∅ : gmap str (list str)).
  induction patterns_list as [|p l IH]; intros d; [done|].
  simpl. destruct p as [|c p].
  - by rewrite pattern_body_empty.
  - destruct (fs file) as [content|e] eqn:Hfs.
    + rewrite (pattern_body_readable file content) by done. simpl. apply IH.
    + by rewrite (pattern_body_unreadable file e).
Qed.


(** The answer for one keyword: it is a key of the result exactly when it
    occurs inside one of the chunks; the chunks are scanned one by one and
    nothing is carried from a chunk to the next. *)
Lemma bm_search_found_iff (file content pattern : str) (buffer_size : Z) :
  fs file = Readable content → pattern ≠ [] →
  ∃ d, bm_search fs file [pattern] buffer_size = Return d ∧
       (is_Some (d !! pattern) ↔
        ∃ chunk, chunk ∈ read_all buffer_size content ∧ substring pattern chunk).
Proof.
  intros Hfs Hne.
  destruct (bm_search_readable file content buffer_size [pattern] Hfs)
    as (d & Hd & Hlookup); [by repeat constructor|].
  exists d. split; [done|]. rewrite Hlookup, <- hits_pos.
  cbv zeta. rewrite occurrences_cons.
  rewrite (decide_True (P := pattern = pattern)) by done.
  unfold occurrences. simpl. case_decide as Hn.
  - split; [lia|by eauto].
  - split; [by intros [? [=]]|lia].
Qed.

(** A buffer that holds the whole file gives the true answer. *)
Lemma bm_search_whole_buffer (file content pattern : str) (buffer_size : Z) :
  fs file = Readable content → pattern ≠ [] →
  (buffer_size < 0 ∨ Z.of_nat (length content) ≤ buffer_size)%Z →
  ∃ d, bm_search fs file [pattern] buffer_size = Return d ∧
       (is_Some (d !! pattern) ↔ substring pattern content).
Proof.
  intros Hfs Hne Hlen.
  destruct (bm_search_found_iff file content pattern buffer_size Hfs Hne)
    as (d & Hd & Hiff).
  exists d. split; [done|]. rewrite Hiff.
  destruct content as [|c content].
  - rewrite read_all_nil. split.
    + by intros (chunk & ?%elem_of_nil & _).
    + intros Hsub%substring_length. destruct pattern; [done|simpl in *; lia].
  - rewrite read_all_whole by done. split.
    + by intros (chunk & ->%list_elem_of_singleton & ?).
    + intros Hsub. eexists. split; [apply list_elem_of_singleton|]; done.
Qed.

(** C9, as the code has it.  For a buffer size that is not negative, a
    keyword longer than the buffer is absent from every result of the
    search, whether or not it occurs in the file; and for a readable file
    and non-empty keywords the search does return, without an error: no
    chunk is as long as the keyword, so the scan of every chunk ends
    before its first comparison. *)
Theorem bm_search_long_pattern (file : str) (buffer_size : Z)
    (patterns_list : list str) (pattern : str) :
  (0 ≤ buffer_size < Z.of_nat (length pattern))%Z →
  (∀ d, bm_search fs file patterns_list buffer_size = Return d →
        d !! pattern = None) ∧
  (∀ content,
     fs file = Readable content → Forall (λ p, p ≠ []) patterns_list →
     (∃ d, bm_search fs file patterns_list buffer_size = Return d) ∧
     ∀ table chunk, chunk ∈ read_all buffer_size content →
       scan_chunk table chunk pattern = Return false).
Proof.
  intros [Hpos Hlong].
  assert (Hchunk : ∀ content chunk : str,
            chunk ∈ read_all buffer_size content →
            length chunk < length pattern).
  { intros content chunk Hin%read_loop_length; lia. }
  assert (Hreadable : ∀ content d,
            fs file = Readable content → Forall (λ p, p ≠ []) patterns_list →
            bm_search fs file patterns_list buffer_size = Return d →
            d !! pattern = None).
  { intros content d Hfs Hall Hd.
    destruct (bm_search_readable file content buffer_size patterns_list
                Hfs Hall) as (d1 & Hd1 & Hlookup).
    assert (d1 = d) as -> by congruence.
    rewrite Hlookup. simpl. rewrite decide_False; [done|].
    assert (¬ 0 < hits pattern (read_all buffer_size content)); [|lia].
    intros (chunk & Hin%Hchunk & Hsub%substring_length)%hits_pos.
    lia. }
  split.
  - intros d Hd.
    destruct (bm_search_Return _ _ _ _ Hd) as [->|[Hall [content Hfs]]].
    + rewrite bm_search_nil in Hd. injection Hd as <-. apply lookup_empty.
    + by eapply Hreadable.
  - intros content Hfs Hall. split.
    + destruct (bm_search_readable file content buffer_size patterns_list
                  Hfs Hall) as (d & Hd & _).
      by exists d.
    + intros table chunk Hin%Hchunk.
      unfold scan_chunk. simpl. rewrite decide_False by lia. done.
Qed.

(** C10.  The scan of one chunk appends at most one entry, the file; so
    in the result of [bm_search] every entry of a keyword's list is the
    file, and the list is no longer than the number of chunks read for
    that keyword: the file is read once for each listing of the keyword,
    so once when no keyword is listed twice. *)
Theorem bm_search_entries (file : str) (patterns_list : list str)
    (buffer_size : Z) :
  (∀ table pattern d chunk d',
     chunk_body table file pattern d chunk = Return d' →
     d' = d ∨ d' = dict_append pattern file d) ∧
  (∀ d k l,
     bm_search fs file patterns_list buffer_size = Return d →
     d !! k = Some l →
     (∀ x, x ∈ l → x = file) ∧
     ∃ content,
       fs file = Readable content ∧
       length l
       ≤ occurrences k patterns_list * length (read_all buffer_size content) ∧
       (NoDup patterns_list →
        length l ≤ length (read_all buffer_size content))).
Proof.
  split.
  - intros table pattern d chunk d'. unfold chunk_body.
    destruct (scan_chunk table chunk pattern) as [[]| |]; simpl; [| |done..].
    + intros [= <-]. by right.
    + intros [= <-]. by left.
  - intros d k l Hd Hk.
    destruct (bm_search_Return _ _ _ _ Hd) as [->|[Hall [content Hfs]]].
    { rewrite bm_search_nil in Hd. injection Hd as <-.
      by rewrite lookup_empty in Hk. }
    destruct (bm_search_readable file content buffer_size patterns_list Hfs Hall)
      as (d1 & Hd1 & Hlookup).
    assert (d1 = d) as -> by congruence.
    rewrite Hlookup in Hk. simpl in Hk. case_decide; [|done].
    injection Hk as <-. split.
    + by intros x [-> _]%elem_of_replicate.
    + exists content. split; [done|]. rewrite length_replicate.
      pose proof (hits_le k (read_all buffer_size content)).
      split; [nia|]. intros Hnd%(occurrences_NoDup k). nia.
Qed.


(** ** The worker *)

Lemma lookup_merge_into (target source : gmap str (list str)) (k : str) :
  merge_into target source !! k =
  match source !! k with
  | Some paths => Some (default [] (target !! k) ++ paths)
  | None => target !! k
  end.
Proof.
  unfold merge_into. revert k.
  apply (map_fold_weak_ind (λ acc m, ∀ k,
           acc !! k = match m !! k with
                      | Some paths => Some (default [] (target !! k) ++ paths)
                      | None => target !! k
                      end)).
  - intros k. by rewrite lookup_empty.
  - intros i x m r Hi IH k. unfold dict_extend.
    destruct (decide (i = k)) as [->|Hne].
    + rewrite !lookup_insert_eq. specialize (IH k). rewrite Hi in IH.
      by rewrite IH.
    + by rewrite !lookup_insert_ne.
Qed.

Lemma merge_into_empty (target : gmap str (list str)) :
  merge_into target ∅ = target.
Proof. apply map_eq. intros k. by rewrite lookup_merge_into, lookup_empty. Qed.

(** A key of a returned search: the file was readable, and the list holds
    nothing but the file. *)
Lemma bm_search_lookup_Some (file : str) (patterns_list : list str)
    (buffer_size : Z) (d : gmap str (list str)) (k : str) (l : list str) :
  bm_search fs file patterns_list buffer_size = Return d → d !! k = Some l →
  (∃ content, fs file = Readable content) ∧ ∀ x, x ∈ l → x = file.
Proof.
  intros Hd Hk.
  destruct (bm_search_Return _ _ _ _ Hd) as [->|[Hall [content Hfs]]].
  { rewrite bm_search_nil in Hd. injection Hd as <-.
    by rewrite lookup_empty in Hk. }
  split; [by eauto|].
  destruct (bm_search_readable file content buffer_size patterns_list Hfs Hall)
    as (d1 & Hd1 & Hlookup).
  assert (d1 = d) as -> by congruence.
  rewrite Hlookup in Hk. simpl in Hk. case_decide; [|done].
  injection Hk as <-. by intros x [-> _]%elem_of_replicate.
Qed.

(** The [try] never lets anything out: the body of the file loop returns. *)
Lemma file_body_Return (keywords : list str) (buffer_size : Z)
    (results : gmap str (list str)) (file_path : str) :
  ∃ results', file_body fs keywords buffer_size results file_path
              = Return results'.
Proof.
  unfold file_body.
  destruct (bm_search fs file_path keywords buffer_size) as [d|e|] eqn:Hbm.
  - eauto.
  - destruct e; eauto.
  - by apply bm_search_no_Diverge in Hbm.
Qed.

(** A search that raises leaves the results of the worker as they were. *)
Lemma file_body_Raise (keywords : list str) (buffer_size : Z)
    (results : gmap str (list str)) (file_path : str) (e : exn) :
  bm_search fs file_path keywords buffer_size = Raise e →
  file_body fs keywords buffer_size results file_path = Return results.
Proof. unfold file_body. intros ->. by destruct e. Qed.

(** So does a file that cannot be read. *)
Lemma file_body_unreadable (keywords : list str) (buffer_size : Z)
    (results : gmap str (list str)) (file_path : str) (e : exn) :
  fs file_path = Unreadable e →
  file_body fs keywords buffer_size results file_path = Return results.
Proof.
  intros Hfs.
  destruct (bm_search fs file_path keywords buffer_size) as [d|e'|] eqn:Hbm.
  - destruct (bm_search_Return _ _ _ _ Hbm) as [->|[_ [content Hfs']]];
      [|congruence].
    unfold file_body. rewrite bm_search_nil. by rewrite merge_into_empty.
  - by eapply file_body_Raise.
  - by apply bm_search_no_Diverge in Hbm.
Qed.

Lemma for_each_app {A S : Type} (body : S → A → outcome S) (l1 l2 : list A)
    (s : S) :
  for_each body s (l1 ++ l2)
  = s' ← for_each body s l1; for_each body s' l2.
Proof.
  revert s. induction l1 as [|x l1 IH]; intros s; [done|].
  simpl. destruct (body s x); simpl; [apply IH|done..].
Qed.

Lemma for_each_total {A S : Type} (body : S → A → outcome S) :
  (∀ s x, ∃ s', body s x = Return s') →
  ∀ l s, ∃ s', for_each body s l = Return s'.
Proof.
  intros Hbody. induction l as [|x l IH]; intros s; [by eexists|].
  simpl. destruct (Hbody s x) as [s1 ->]. simpl. apply IH.
Qed.

(** The worker always returns. *)
Lemma search_keywords_in_files_Return (files keywords : list str)
    (buffer_size : Z) :
  ∃ results,
    search_keywords_in_files fs files keywords buffer_size = Return results.
Proof. apply for_each_total. intros s x. apply file_body_Return. Qed.

(** Every entry of the results of the worker is a file that was read. *)
Lemma worker_loop_entries (keywords : list str) (buffer_size : Z)
    (files : list str) (results results' : gmap str (list str)) :
  (∀ k l x, results !! k = Some l → x ∈ l →
     ∃ content, fs x = Readable content) →
  for_each (file_body fs keywords buffer_size) results files = Return results' →
  ∀ k l x, results' !! k = Some l → x ∈ l → ∃ content, fs x = Readable content.
Proof.
  revert results. induction files as [|file files IH]; intros results Hinv.
  { by intros [= <-]. }
  simpl.
  destruct (file_body fs keywords buffer_size results file) as [r1| |] eqn:Hr1;
    [|done..].
  simpl. apply IH. clear IH. unfold file_body in Hr1.
  destruct (bm_search fs file keywords buffer_size) as [d|e|] eqn:Hbm.
  - injection Hr1 as <-. intros k l x. rewrite lookup_merge_into.
    destruct (d !! k) as [paths|] eqn:Hk; [|by apply Hinv].
    intros [= <-] [Hx|Hx]%elem_of_app.
    + destruct (results !! k) as [l0|] eqn:Hk0; [by eapply Hinv|].
      by apply elem_of_nil in Hx.
    + destruct (bm_search_lookup_Some _ _ _ _ _ _ Hbm Hk) as [Hread Hall].
      by rewrite (Hall x Hx).
  - assert (r1 = results) as -> by (by destruct e; injection Hr1). done.
  - done.
Qed.

(** ** The coordinator *)

Variable cpu_count : nat.

Lemma slice_nil {A : Type} (start_index end_index : nat) :
  slice ([] : list A) start_index end_index = [].
Proof. unfold slice. by rewrite drop_nil, take_nil. Qed.

(** The first [k] full slices cover the first [k * chunk_size] files. *)
Lemma concat_full_slices {A : Type} (files : list A) (chunk_size k : nat) :
  concat (map (λ i, take chunk_size (drop (i * chunk_size) files)) (seq 0 k))
  = take (k * chunk_size) files.
Proof.
  induction k as [|k IH]; [done|].
  rewrite seq_S, map_app, concat_app, IH. simpl.
  rewrite app_nil_r, take_take_drop. f_equal. lia.
Qed.

(** The slices, spelled out: all but the last have [chunk_size] files, the
    last one runs to the end of the list. *)
Lemma process_slices_pos (files : list str) (m : nat) :
  let chunk_size := length files `div` S m in
  process_slices files (S m)
  = Return (map (λ i, take chunk_size (drop (i * chunk_size) files)) (seq 0 m)
            ++ [drop (m * chunk_size) files]).
Proof.
  intros chunk_size. unfold process_slices.
  rewrite decide_False by done. fold chunk_size. f_equal.
  rewrite seq_S, map_app. simpl. f_equal.
  - apply map_ext_in. intros i Hi%in_seq.
    rewrite decide_True by lia. unfold slice. f_equal. lia.
  - rewrite decide_False by lia. unfold slice.
    f_equal. apply take_ge. rewrite length_drop. lia.
Qed.

(** C5.  For every file list and every number of processes [n >= 1], the
    coordinator cuts the list into exactly [n] slices whose concatenation
    is the list: slice [i] starts at [i * chunk_size], every slice but the
    last has [chunk_size] files and the last one runs to the end, so the
    slices are contiguous, do not overlap, and every file is in exactly
    one of them. *)
Theorem process_slices_partition (files : list str) (num_processes : nat) :
  1 ≤ num_processes →
  ∃ slices,
    process_slices files num_processes = Return slices ∧
    length slices = num_processes ∧
    concat slices = files ∧
    let chunk_size := length files `div` num_processes in
    (∀ i, i < num_processes - 1 →
       slices !! i = Some (take chunk_size (drop (i * chunk_size) files))) ∧
    slices !! (num_processes - 1)
    = Some (drop ((num_processes - 1) * chunk_size) files).
Proof.
  intros Hn. destruct num_processes as [|m]; [lia|].
  eexists. split; [apply process_slices_pos|].
  replace (S m - 1) with m by lia.
  set (chunk_size := length files `div` S m).
  assert (Hlen : length (map (λ i, take chunk_size
                                     (drop (i * chunk_size) files)) (seq 0 m))
                 = m) by (by rewrite length_map, length_seq).
  cbv zeta. split_and!.
  - rewrite length_app, Hlen. simpl. lia.
  - rewrite concat_app, concat_full_slices. simpl.
    rewrite app_nil_r. apply take_drop.
  - intros i Hi. rewrite lookup_app_l by lia.
    rewrite list_lookup_fmap, lookup_seq_lt by done. done.
  - rewrite lookup_app_r by lia. by rewrite Hlen, Nat.sub_diag.
Qed.


Variable pickled_size : gmap str (list str) → nat.
Variable pipe_capacity : nat.

(** Every process runs its worker to the end. *)
Lemma start_processes_total (slices : list (list str)) (keywords : list str)
    (buffer_size : Z) :
  ∃ partials, start_processes fs slices keywords buffer_size = Return partials.
Proof.
  apply for_each_total. intros done process_files.
  destruct (search_keywords_in_files_Return process_files keywords buffer_size)
    as [r ->].
  by eexists.
Qed.

Lemma join_all_fits (partials : list (gmap str (list str))) :
  sum_list (pickled_size <$> partials) ≤ pipe_capacity →
  join_all pickled_size pipe_capacity partials = Return partials.
Proof. intros. unfold join_all. by rewrite decide_True. Qed.


(** The joins return the results as they are, when they return. *)
Lemma join_all_Return (partials partials' : list (gmap str (list str))) :
  join_all pickled_size pipe_capacity partials = Return partials' →
  partials' = partials ∧ sum_list (pickled_size <$> partials) ≤ pipe_capacity.
Proof. unfold join_all. case_decide; [|done]. by intros [= <-]. Qed.

(** The processes raise nothing: they return or the joins block. *)
Lemma run_processes_no_Raise (slices : list (list str)) (keywords : list str)
    (buffer_size : Z) (e : exn) :
  run_processes fs pickled_size pipe_capacity slices keywords buffer_size
  ≠ Raise e.
Proof.
  unfold run_processes.
  destruct (start_processes_total slices keywords buffer_size)
    as [partials ->].
  simpl. unfold join_all. by case_decide.
Qed.

(** What the processes return is what they put on the queue. *)
Lemma run_processes_Return (slices : list (list str)) (keywords : list str)
    (buffer_size : Z) (partials : list (gmap str (list str))) :
  run_processes fs pickled_size pipe_capacity slices keywords buffer_size
  = Return partials ↔
  start_processes fs slices keywords buffer_size = Return partials ∧
  sum_list (pickled_size <$> partials) ≤ pipe_capacity.
Proof.
  unfold run_processes.
  destruct (start_processes_total slices keywords buffer_size)
    as [partials' ->].
  simpl. split.
  - intros [-> ?]%join_all_Return. done.
  - intros [[= ->] ?]. by apply join_all_fits.
Qed.

Lemma map_const {A B : Type} (c : B) (l : list A) :
  map (λ _, c) l = replicate (length l) c.
Proof. induction l as [|x l IH]; [done|]. simpl. by rewrite IH. Qed.

Lemma process_slices_nil (num_processes : nat) :
  1 ≤ num_processes →
  process_slices ([] : list str) num_processes
  = Return (replicate num_processes []).
Proof.
  intros Hn. unfold process_slices. rewrite decide_False by lia. f_equal.
  erewrite map_ext by (intros i; apply slice_nil).
  by rewrite map_const, length_seq.
Qed.

Lemma run_loop_nil (keywords : list str) (buffer_size : Z) (n : nat)
    (done : list (gmap str (list str))) :
  for_each (λ done process_files,
              r ← search_keywords_in_files fs process_files keywords buffer_size;
              Return (done ++ [r]))
           done (replicate n [])
  = Return (done ++ replicate n ∅).
Proof.
  revert done. induction n as [|n IH]; intros done; simpl.
  - by rewrite app_nil_r.
  - rewrite IH. by rewrite <- app_assoc.
Qed.

Lemma start_processes_nil (keywords : list str) (buffer_size : Z) (n : nat) :
  start_processes fs (replicate n []) keywords buffer_size
  = Return (replicate n ∅).
Proof. apply run_loop_nil. Qed.

Lemma sum_list_replicate (n x : nat) : sum_list (replicate n x) = n * x.
Proof. induction n as [|n IH]; [done|]. simpl. by rewrite IH. Qed.

Lemma drain_empty (n : nat) :
  drain (replicate n (∅ : gmap str (list str))) = ∅.
Proof.
  unfold drain. induction n as [|n IH]; [done|].
  simpl. by rewrite merge_into_empty.
Qed.

(** C7, as the code has it.  For the empty file list and at least one
    process, the coordinator starts every one of its processes on an empty
    slice and what it returns is the empty mapping; it returns when the
    empty results of the processes fit in the pipe of the queue
    together. *)
Theorem multiprocessing_search_no_files (keywords : list str)
    (num_processes : option nat) (buffer_size : Z) :
  1 ≤ default cpu_count num_processes →
  ∀ spawned final_results,
    multiprocessing_search fs cpu_count pickled_size pipe_capacity
      [] keywords num_processes buffer_size spawned final_results
    ↔ spawned = replicate (default cpu_count num_processes) [] ∧
      final_results = ∅ ∧
      default cpu_count num_processes * pickled_size ∅ ≤ pipe_capacity.
Proof.
  intros Hn spawned final_results. unfold multiprocessing_search.
  rewrite process_slices_nil by done.
  set (n := default cpu_count num_processes).
  assert (Hsize : sum_list (pickled_size <$> replicate n ∅)
                  = n * pickled_size ∅)
    by (by rewrite fmap_replicate, sum_list_replicate).
  split.
  - intros (partials & queue & [= <-] & Hrun & Hperm & ->).
    apply run_processes_Return in Hrun as [Hstart Hfits].
    rewrite start_processes_nil in Hstart. injection Hstart as <-.
    symmetry in Hperm. apply replicate_Permutation in Hperm as <-.
    rewrite drain_empty. split_and!; [done|done|lia].
  - intros (-> & -> & Hfits).
    exists (replicate n ∅), (replicate n ∅).
    split_and!; [done| |done|by rewrite drain_empty].
    apply run_processes_Return. split; [apply start_processes_nil|lia].
Qed.

(** With an empty keyword in the list the search of any file raises. *)
Lemma bm_search_empty_keyword (file : str) (keywords : list str)
    (buffer_size : Z) :
  [] ∈ keywords → ∃ e, bm_search fs file keywords buffer_size = Raise e.
Proof.
  intros Hin.
  destruct (bm_search fs file keywords buffer_size) as [d|e|] eqn:Hbm.
  - destruct (bm_search_Return _ _ _ _ Hbm) as [->|[Hall _]].
    + by apply elem_of_nil in Hin.
    + rewrite Forall_forall in Hall. by destruct (Hall [] Hin).
  - by eauto.
  - by apply bm_search_no_Diverge in Hbm.
Qed.

(** C8, as the code has it.  [build_shift_table] raises on the empty
    pattern (an [IndexError]) and returns a table for every other
    pattern; the exception ends the search of the file, for every file,
    and the worker catches it as it catches a file that cannot be read:
    with an empty keyword in the list the worker returns an empty result
    and raises nothing. *)
Theorem empty_pattern_absorbed :
  build_shift_table ([] : str) = Raise IndexError ∧
  (∀ pattern : str,
     pattern ≠ [] → ∃ table, build_shift_table pattern = Return table) ∧
  (∀ file keywords buffer_size,
     [] ∈ keywords →
     ∃ e, bm_search fs file keywords buffer_size = Raise e) ∧
  (∀ files keywords buffer_size,
     [] ∈ keywords →
     search_keywords_in_files fs files keywords buffer_size = Return ∅).
Proof.
  split_and!.
  - done.
  - intros pattern (prefix & x & ->)%nonempty_snoc.
    eexists. apply build_shift_table_snoc.
  - intros file keywords buffer_size. apply bm_search_empty_keyword.
  - intros files keywords buffer_size Hin. unfold search_keywords_in_files.
    generalize (∅ : gmap str (list str)).
    induction files as [|file files IH]; intros results; [done|].
    destruct (bm_search_empty_keyword file keywords buffer_size Hin)
      as [e He].
    simpl. rewrite (file_body_Raise _ _ _ _ e He). simpl. apply IH.
Qed.

End Properties.

(** * The search on the corpus *)

(** C1, where the code departs from it.  In [c.txt] the keyword lies at
    offset 6 of 16 characters.  With a buffer of 8 characters the file is
    read as two chunks, the keyword lies across them and is not reported;
    with a buffer of 16 characters it is.  Both buffers are at least as
    long as the keyword. *)
Theorem chunk_boundary_occurrence_missed :
  corpus (text "c.txt") = Readable (text "xxxxxxhelloxxxxx") ∧
  substring (text "hello") (text "xxxxxxhelloxxxxx") ∧
  length (text "hello") ≤ 8 ∧
  read_all 8 (text "xxxxxxhelloxxxxx") = [text "xxxxxxhe"; text "lloxxxxx"] ∧
  bm_search corpus (text "c.txt") [text "hello"] 8 = Return ∅ ∧
  bm_search corpus (text "c.txt") [text "hello"] 16
  = Return {[ text "hello" := [text "c.txt"] ]}.
Proof.
  split_and!; [done| |simpl; lia|done|by vm_compute|by vm_compute].
  by exists (text "xxxxxx"), (text "xxxxx").
Qed.

(** C2 on a line of prose. *)
Lemma scan_chunk_iff_substring_witness :
  text "book" ≠ [] ∧
  ∃ table found,
    build_shift_table (text "book") = Return table ∧
    scan_chunk table (text "the book is here") (text "book") = Return found ∧
    (found = true ↔ substring (text "book") (text "the book is here")) ∧
    found = substringb (text "book") (text "the book is here").
Proof.
  split; [done|].
  apply (scan_chunk_iff_substring (text "the book is here") (text "book")).
  done.
Defined.

(** C3, where the code departs from it.  In [d.txt] the keyword occurs in
    each of the two chunks of two characters; the [break] leaves the scan
    of a chunk, not the loop over the chunks, and the worker records the
    file twice under the keyword. *)
Theorem worker_records_file_twice :
  corpus (text "d.txt") = Readable (text "abab") ∧
  read_all 2 (text "abab") = [text "ab"; text "ab"] ∧
  bm_search corpus (text "d.txt") [text "ab"] 2
  = Return {[ text "ab" := [text "d.txt"; text "d.txt"] ]} ∧
  search_keywords_in_files corpus [text "d.txt"] [text "ab"] 2
  = Return {[ text "ab" := [text "d.txt"; text "d.txt"] ]}.
Proof. split_and!; [done|done|by vm_compute|by vm_compute]. Qed.

(** C4 on a pattern whose last character also occurs earlier. *)
Lemma build_shift_table_spec_witness :
  text "aba" ≠ [] ∧
  ∃ table,
    build_shift_table (text "aba") = Return table ∧
    dom table = list_to_set (text "aba") ∧
    (∀ c v, table !! c = Some v → 1 ≤ v ≤ length (text "aba")) ∧
    (∀ c i, i < length (text "aba") - 1 → text "aba" !! i = Some c →
       (∀ j, i < j < length (text "aba") - 1 → text "aba" !! j ≠ Some c) →
       table !! c = Some (length (text "aba") - i - 1)) ∧
    (∀ c, last (text "aba") = Some c →
       (table !! c = Some (length (text "aba")) ↔
        c ∉ take (length (text "aba") - 1) (text "aba"))).
Proof. split; [done|]. apply (build_shift_table_spec (text "aba")). done. Defined.

(** C5 on five files and two processes. *)
Lemma process_slices_partition_witness :
  1 ≤ 2 ∧
  ∃ slices,
    process_slices (map text ["a"; "b"; "c"; "d"; "e"]) 2 = Return slices ∧
    length slices = 2 ∧
    concat slices = map text ["a"; "b"; "c"; "d"; "e"] ∧
    slices !! 0 = Some (map text ["a"; "b"]) ∧
    slices !! 1 = Some (map text ["c"; "d"; "e"]).
Proof.
  split; [lia|].
  destruct (process_slices_partition (map text ["a"; "b"; "c"; "d"; "e"]) 2)
    as (slices & Hslices & Hlen & Hconcat & Hfull & Hlast); [lia|].
  exists slices. split_and!; [done..| |done].
  apply (Hfull 0). simpl. lia.
Defined.

(** C7 as stated fails: with no file and two processes, the coordinator
    starts two processes, each on an empty slice. *)
Lemma no_files_processes_started :
  ¬ (∀ spawned final_results,
       multiprocessing_search corpus 4 pickle 100 [] [text "book"] (Some 2)
         4096 spawned final_results →
       final_results = ∅ ∧ spawned = []).
Proof.
  intros Hclaim. destruct (Hclaim [[]; []] ∅) as [_ Hspawned]; [|done].
  exists [∅; ∅], [∅; ∅]. split_and!; [done|evaluate|done|evaluate].
Qed.

(** C7 as the code has it, on no file and two processes. *)
Lemma multiprocessing_search_no_files_witness :
  1 ≤ 2 ∧
  ∀ spawned final_results,
    multiprocessing_search corpus 4 pickle 100 [] [text "book"] (Some 2) 4096
      spawned final_results
    ↔ spawned = [[]; []] ∧ final_results = ∅ ∧ 2 * pickle ∅ ≤ 100.
Proof.
  split; [lia|].
  apply (multiprocessing_search_no_files corpus 4 pickle 100 [text "book"]
           (Some 2) 4096).
  simpl. lia.
Defined.

(** C8 as stated fails: with an empty keyword the table cannot be built,
    yet the worker and the coordinator return, with an empty result. *)
Lemma empty_keyword_not_raised :
  build_shift_table ([] : list ascii) = Raise IndexError ∧
  search_keywords_in_files corpus [text "a.txt"] [[]] 4096 = Return ∅ ∧
  multiprocessing_search corpus 4 pickle 100 [text "a.txt"] [[]] (Some 1) 4096
    [[text "a.txt"]] ∅.
Proof.
  split_and!; [done|evaluate|].
  exists [∅], [∅]. split_and!; [done|evaluate|done|evaluate].
Qed.

(** C8 as the code has it, on a keyword list with an empty keyword. *)
Lemma empty_pattern_absorbed_witness :
  text "book" ≠ [] ∧ [] ∈ [text "book"; []] ∧
  (∃ table, build_shift_table (text "book") = Return table) ∧
  (∃ e, bm_search corpus (text "a.txt") [text "book"; []] 4096 = Raise e) ∧
  search_keywords_in_files corpus [text "a.txt"; text "b.txt"]
    [text "book"; []] 4096 = Return ∅.
Proof.
  destruct (empty_pattern_absorbed corpus) as (_ & Htable & Hbm & Hworker).
  assert (Hin : [] ∈ [text "book"; []]) by (right; left).
  split_and!; [done|exact Hin|by apply Htable|by apply Hbm|by apply Hworker].
Defined.

(** C9 as stated fails: a negative buffer size is smaller than the
    length of every keyword, and [f.read] with a negative size reads the
    whole file as one chunk, in which the keyword is found. *)
Lemma negative_buffer_size_reads_all :
  (-1 < Z.of_nat (length (text "book")))%Z ∧
  corpus (text "a.txt") = Readable (text "the book is here") ∧
  read_all (-1) (text "the book is here") = [text "the book is here"] ∧
  bm_search corpus (text "a.txt") [text "book"] (-1)
  = Return {[ text "book" := [text "a.txt"] ]}.
Proof.
  split; [done|]. split; [done|]. split; [done|evaluate].
Qed.

(** C9 as the code has it, on a keyword of four characters read two
    characters at a time: the keyword occurs in the file and is not
    reported. *)
Lemma bm_search_long_pattern_witness :
  (0 ≤ 2 < Z.of_nat (length (text "book")))%Z ∧
  corpus (text "a.txt") = Readable (text "the book is here") ∧
  Forall (λ p, p ≠ []) [text "book"] ∧
  substring (text "book") (text "the book is here") ∧
  bm_search corpus (text "a.txt") [text "book"] 2 = Return ∅ ∧
  (∅ : gmap (list ascii) (list (list ascii))) !! text "book" = None.
Proof.
  assert (Hlong : (0 ≤ 2 < Z.of_nat (length (text "book")))%Z)
    by (simpl; lia).
  assert (Hall : Forall (λ p, p ≠ []) [text "book"]) by (by repeat constructor).
  assert (Hd : bm_search corpus (text "a.txt") [text "book"] 2 = Return ∅)
    by evaluate.
  destruct (bm_search_long_pattern corpus (text "a.txt") 2 [text "book"]
              (text "book") Hlong) as [Habsent Hreturns].
  split; [exact Hlong|]. split; [done|]. split; [exact Hall|].
  split; [by exists (text "the "), (text " is here")|].
  split; [exact Hd|exact (Habsent ∅ Hd)].
Defined.

(** C10 on the file in which the keyword occurs in both chunks. *)
Lemma bm_search_entries_witness :
  bm_search corpus (text "d.txt") [text "ab"] 2
  = Return {[ text "ab" := [text "d.txt"; text "d.txt"] ]} ∧
  ({[ text "ab" := [text "d.txt"; text "d.txt"] ]} : gmap _ _) !! text "ab"
  = Some [text "d.txt"; text "d.txt"] ∧
  (∀ x, x ∈ [text "d.txt"; text "d.txt"] → x = text "d.txt") ∧
  ∃ content,
    corpus (text "d.txt") = Readable content ∧
    length [text "d.txt"; text "d.txt"] ≤ length (read_all 2 content).
Proof.
  assert (Hd : bm_search corpus (text "d.txt") [text "ab"] 2
               = Return {[ text "ab" := [text "d.txt"; text "d.txt"] ]})
    by (by vm_compute).
  assert (Hk : ({[ text "ab" := [text "d.txt"; text "d.txt"] ]}
                : gmap (list ascii) (list (list ascii))) !! text "ab"
               = Some [text "d.txt"; text "d.txt"]) by (by vm_compute).
  destruct (proj2 (bm_search_entries corpus (text "d.txt") [text "ab"] 2)
              _ _ _ Hd Hk) as (Hall & content & Hfs & _ & Hlen).
  split_and!; [exact Hd|exact Hk|exact Hall|].
  exists content. split; [done|]. apply Hlen. repeat constructor.
  by intros ?%elem_of_nil.
Defined.

(** The two files of prose, searched by two processes: whichever process
    finishes first, each keyword that occurs maps to its file, and the
    keyword that occurs nowhere is not a key. *)
Example two_files_two_processes (spawned : list (list (list ascii)))
    (final_results : gmap (list ascii) (list (list ascii))) :
  multiprocessing_search corpus 4 pickle 100 [text "a.txt"; text "b.txt"]
    [text "book"; text "summer"; text "life"] (Some 2) 4096
    spawned final_results →
  spawned = [[text "a.txt"]; [text "b.txt"]] ∧
  final_results
  = {[ text "book" := [text "a.txt"]; text "summer" := [text "b.txt"] ]}.
Proof.
  intros (partials & queue & Hslices & Hrun & Hperm & ->).
  injection Hslices as <-. split; [done|].
  assert (Hpartials : partials = [ {[ text "book" := [text "a.txt"] ]};
                                   {[ text "summer" := [text "b.txt"] ]} ]).
  { assert (Hrun' : Return partials
                    = Return [ {[ text "book" := [text "a.txt"] ]};
                               {[ text "summer" := [text "b.txt"] ]} ])
      by (rewrite <- Hrun; evaluate).
    by injection Hrun'. }
  subst partials. symmetry in Hperm.
  apply Permutation_length_2_inv in Hperm as [->| ->]; evaluate.
Qed.

(** * Further properties of the code *)

Section Further.

Context {char : Type} `{Countable char}.

Abbreviation str := (list char).

Variable fs : str → file_state char.

(** ** The chunks of a file *)

Lemma read_loop_lookup (buffer_size : Z) (fuel : nat) (rest : str) (i : nat) :
  (0 < buffer_size)%Z → length rest ≤ fuel →
  read_loop fuel buffer_size rest !! i
  = if decide (i * Z.to_nat buffer_size < length rest)
    then Some (take (Z.to_nat buffer_size)
                 (drop (i * Z.to_nat buffer_size) rest))
    else None.
Proof.
  intros HB. revert rest i. induction fuel as [|fuel IH]; intros rest i Hlen.
  - destruct rest; [|simpl in Hlen; lia].
    rewrite decide_False by (simpl; lia). apply lookup_nil.
  - rewrite read_loop_S, read_nonnegative by lia.
    destruct (Z.to_nat buffer_size) as [|b] eqn:Hb; [lia|].
    destruct rest as [|c rest].
    + rewrite decide_False by (simpl; lia). apply lookup_nil.
    + change ((take (S b) (c :: rest), drop (S b) (c :: rest)).1)
        with (c :: take b rest).
      change ((take (S b) (c :: rest), drop (S b) (c :: rest)).2)
        with (drop (S b) (c :: rest)).
      destruct i as [|i].
      * rewrite decide_True by (simpl; lia). done.
      * rewrite lookup_cons_ne_0 by done. simpl Nat.pred.
        rewrite IH by (rewrite length_drop; simpl in *; lia).
        rewrite ?Hb, length_drop, drop_drop.
        replace (S b + i * S b) with (S i * S b) by lia.
        destruct (decide (i * S b < length (c :: rest) - S b));
          [rewrite decide_True by lia|rewrite decide_False by lia]; done.
Qed.

(** X1.  With a buffer of at least one character, chunk [i] of a text is
    its characters from [i * buffer_size], [buffer_size] of them or what
    is left; the chunks put end to end are the text, none is empty or
    longer than the buffer, and there are as many as the length of the
    text divided by the buffer size, rounded up. *)
Theorem read_all_chunks (buffer_size : Z) (content : str) :
  (0 < buffer_size)%Z →
  let n := Z.to_nat buffer_size in
  (∀ i, read_all buffer_size content !! i
        = if decide (i * n < length content)
          then Some (take n (drop (i * n) content))
          else None) ∧
  concat (read_all buffer_size content) = content ∧
  Forall (λ chunk, 1 ≤ length chunk ≤ n) (read_all buffer_size content) ∧
  length content ≤ length (read_all buffer_size content) * n ∧
  length (read_all buffer_size content) * n < length content + n.
Proof.
  intros HB n.
  assert (Hn : 0 < n) by (unfold n; lia).
  assert (Hlookup : ∀ i, read_all buffer_size content !! i
            = if decide (i * n < length content)
              then Some (take n (drop (i * n) content))
              else None).
  { intros i. apply read_loop_lookup; [done|lia]. }
  split_and!; [done|apply read_all_concat; lia| | |].
  - apply Forall_lookup. intros i chunk. rewrite Hlookup.
    case_decide; [|done]. intros [= <-].
    rewrite length_take, length_drop. lia.
  - pose proof (Hlookup (length (read_all buffer_size content))) as Hend.
    rewrite lookup_ge_None_2 in Hend by done. case_decide; [done|lia].
  - destruct (length (read_all buffer_size content)) as [|m] eqn:Hm; [lia|].
    pose proof (Hlookup m) as Hlast.
    destruct (lookup_lt_is_Some_2 (read_all buffer_size content) m) as [c Hc];
      [lia|].
    rewrite Hc in Hlast. case_decide; [lia|done].
Qed.

(** ** The search of one file *)

Lemma substring_trans (p q r : str) :
  substring p q → substring q r → substring p r.
Proof.
  intros (b1 & a1 & ->) (b2 & a2 & ->).
  exists (b2 ++ b1), (a1 ++ a2). by rewrite <- !app_assoc.
Qed.

Lemma read_loop_substring (buffer_size : Z) (fuel : nat) (rest chunk : str) :
  chunk ∈ read_loop fuel buffer_size rest → substring chunk rest.
Proof.
  revert rest. induction fuel as [|fuel IH]; intros rest.
  - by intros ?%elem_of_nil.
  - rewrite read_loop_S.
    assert (Hread : rest = (read buffer_size rest).1
                           ++ (read buffer_size rest).2).
    { unfold read. case_decide; simpl;
        [by rewrite app_nil_r|by rewrite take_drop]. }
    destruct (read buffer_size rest) as [buffer rest']. simpl in *.
    destruct buffer as [|c buffer]; [by intros ?%elem_of_nil|].
    intros [->|Hin]%elem_of_cons.
    + by exists [], rest'.
    + apply IH in Hin as (before & after & ->).
      exists ((c :: buffer) ++ before), after.
      rewrite Hread. by rewrite <- !app_assoc.
Qed.

(** X2.  Whatever the search of a file returns holds no false hit: a key
    of the result is one of the keywords, it is not empty, it does occur in
    the text of the file, and its list is not empty. *)
Theorem bm_search_sound (file : str) (patterns_list : list str)
    (buffer_size : Z) (d : gmap str (list str)) (k : str) (l : list str) :
  bm_search fs file patterns_list buffer_size = Return d →
  d !! k = Some l →
  k ∈ patterns_list ∧ k ≠ [] ∧ l ≠ [] ∧
  ∃ content, fs file = Readable content ∧ substring k content.
Proof.
  intros Hd Hk.
  destruct (bm_search_Return _ _ _ _ _ Hd) as [->|[Hall [content Hfs]]].
  { rewrite bm_search_nil in Hd. injection Hd as <-.
    by rewrite lookup_empty in Hk. }
  destruct (bm_search_readable fs file content buffer_size patterns_list
              Hfs Hall) as (d1 & Hd1 & Hlookup).
  assert (d1 = d) as -> by congruence.
  rewrite Hlookup in Hk. cbv zeta in Hk. case_decide as Hn; [|done].
  injection Hk as <-.
  assert (Hocc : 0 < occurrences k patterns_list) by nia.
  assert (Hhits : 0 < hits k (read_all buffer_size content)) by nia.
  apply occurrences_pos in Hocc.
  apply hits_pos in Hhits as (chunk & Hin%read_loop_substring & Hsub).
  split_and!; [done| | |].
  - rewrite Forall_forall in Hall. by apply Hall.
  - destruct (occurrences k patterns_list * hits k _); [lia|done].
  - exists content. split; [done|]. by eapply substring_trans.
Qed.

(** X3.  For a readable file and non-empty keywords, a key of the result
    is a keyword that occurs in some chunk, and its list holds the file
    once for each listing of the keyword and each chunk in which the
    keyword occurs, and nothing else. *)
Theorem bm_search_count (file content : str) (buffer_size : Z)
    (patterns_list : list str) :
  fs file = Readable content → Forall (λ p, p ≠ []) patterns_list →
  ∃ d, bm_search fs file patterns_list buffer_size = Return d ∧
       ∀ k,
         default [] (d !! k)
         = replicate (occurrences k patterns_list
                      * hits k (read_all buffer_size content)) file ∧
         (is_Some (d !! k) ↔
          k ∈ patterns_list ∧
          ∃ chunk, chunk ∈ read_all buffer_size content ∧ substring k chunk).
Proof.
  intros Hfs Hall.
  destruct (bm_search_readable fs file content buffer_size patterns_list
              Hfs Hall) as (d & Hd & Hlookup).
  exists d. split; [done|]. intros k. rewrite Hlookup. cbv zeta.
  rewrite <- hits_pos, <- occurrences_pos. case_decide as Hn.
  - split; [done|]. split; [lia|by eauto].
  - split.
    + by replace (occurrences k patterns_list * hits k _) with 0 by lia.
    + split; [by intros [? [=]]|nia].
Qed.

(** X4.  When the buffer holds the whole file, or has a negative size,
    which reads the whole file at once, the search is exact: for non-empty
    keywords, a keyword is a key of the result exactly when it is listed
    and occurs in the file, and its list holds the file once for each
    listing. *)
Theorem bm_search_fits (file content : str) (buffer_size : Z)
    (patterns_list : list str) :
  fs file = Readable content → Forall (λ p, p ≠ []) patterns_list →
  (buffer_size < 0 ∨ Z.of_nat (length content) ≤ buffer_size)%Z →
  ∃ d, bm_search fs file patterns_list buffer_size = Return d ∧
       ∀ k,
         (is_Some (d !! k) ↔ k ∈ patterns_list ∧ substring k content) ∧
         (∀ l, d !! k = Some l →
               l = replicate (occurrences k patterns_list) file).
Proof.
  intros Hfs Hall Hlen.
  destruct (bm_search_readable fs file content buffer_size patterns_list
              Hfs Hall) as (d & Hd & Hlookup).
  exists d. split; [done|]. intros k. rewrite Hlookup. cbv zeta.
  assert (Hhits : k ≠ [] →
            hits k (read_all buffer_size content)
            = if substringb k content then 1 else 0).
  { intros Hk. destruct content as [|c' content].
    - rewrite read_all_nil. destruct (substringb k []) eqn:Hsub; [|done].
      apply substringb_true, substring_length in Hsub.
      destruct k; [done|simpl in Hsub; lia].
    - rewrite read_all_whole by done. unfold hits.
      rewrite filter_cons, filter_nil.
      by destruct (substringb k (c' :: content)). }
  rewrite <- substringb_true.
  destruct (decide (k ∈ patterns_list)) as [Hin|Hnotin].
  - assert (Hk : k ≠ []) by (rewrite Forall_forall in Hall; by apply Hall).
    rewrite (Hhits Hk).
    pose proof (proj2 (occurrences_pos k patterns_list) Hin) as Hocc.
    destruct (substringb k content).
    + rewrite decide_True by lia. split; [by eauto|].
      intros l [= <-]. f_equal. lia.
    + rewrite decide_False by lia. split; [|done].
      split; [by intros [? [=]]|by intros [_ ?]].
  - assert (Hocc : occurrences k patterns_list = 0).
    { destruct (occurrences k patterns_list) eqn:Ho; [done|].
      destruct Hnotin. apply occurrences_pos. lia. }
    rewrite Hocc. rewrite decide_False by lia.
    split; [|done]. split; [by intros [? [=]]|by intros [? _]].
Qed.

Lemma occurrences_Permutation (keyword : str) (keywords keywords' : list str) :
  keywords ≡ₚ keywords' →
  occurrences keyword keywords = occurrences keyword keywords'.
Proof. intros Hperm. unfold occurrences. by rewrite Hperm. Qed.

(** X5.  For a readable file and non-empty keywords, the order in which
    the keywords are listed does not show in the result. *)
Theorem bm_search_keyword_order (file content : str) (buffer_size : Z)
    (patterns_list patterns_list' : list str) :
  fs file = Readable content → Forall (λ p, p ≠ []) patterns_list →
  patterns_list ≡ₚ patterns_list' →
  ∃ d, bm_search fs file patterns_list buffer_size = Return d ∧
       bm_search fs file patterns_list' buffer_size = Return d.
Proof.
  intros Hfs Hall Hperm.
  assert (Hall' : Forall (λ p, p ≠ []) patterns_list') by (by rewrite <- Hperm).
  destruct (bm_search_readable fs file content buffer_size patterns_list
              Hfs Hall) as (d & Hd & Hlookup).
  destruct (bm_search_readable fs file content buffer_size patterns_list'
              Hfs Hall') as (d' & Hd' & Hlookup').
  exists d. split; [done|]. rewrite Hd'. f_equal. apply map_eq. intros k.
  rewrite Hlookup, Hlookup'.
  by rewrite (occurrences_Permutation k _ _ Hperm).
Qed.



(** ** Merging results *)

Lemma merge_into_empty_l (d : gmap str (list str)) : merge_into ∅ d = d.
Proof.
  apply map_eq. intros k. rewrite lookup_merge_into, lookup_empty.
  by destruct (d !! k).
Qed.

Lemma merge_into_assoc (a b c : gmap str (list str)) :
  merge_into (merge_into a b) c = merge_into a (merge_into b c).
Proof.
  apply map_eq. intros k. rewrite !lookup_merge_into.
  destruct (c !! k) as [p|], (b !! k) as [q|]; simpl; try done.
  by rewrite app_assoc.
Qed.

(** X7.  Merging a result into another extends the list of every keyword
    of the source by the source's list, adds the keywords that were
    missing, and leaves the other keywords as they were; the keywords of
    the merge are those of the two. *)
Theorem merge_into_spec (target source : gmap str (list str)) :
  (∀ k paths, source !! k = Some paths →
     merge_into target source !! k
     = Some (default [] (target !! k) ++ paths)) ∧
  (∀ k, source !! k = None →
     merge_into target source !! k = target !! k) ∧
  dom (merge_into target source) = dom target ∪ dom source.
Proof.
  split_and!.
  - intros k paths Hk. by rewrite lookup_merge_into, Hk.
  - intros k Hk. by rewrite lookup_merge_into, Hk.
  - apply set_eq. intros k.
    rewrite elem_of_union, !elem_of_dom, lookup_merge_into.
    destruct (source !! k) as [paths|].
    + split; [by eauto|]. intros _. by eexists.
    + split; [by left|]. by intros [?|[? [=]]].
Qed.

(** X8.  Merging is associative and the empty result is neutral on both
    sides, so partial results can be merged in any grouping. *)
Theorem merge_into_monoid (a b c : gmap str (list str)) :
  merge_into ∅ a = a ∧
  merge_into a ∅ = a ∧
  merge_into (merge_into a b) c = merge_into a (merge_into b c).
Proof.
  split_and!;
    [apply merge_into_empty_l|apply merge_into_empty|apply merge_into_assoc].
Qed.

Lemma fold_merge_into (queue : list (gmap str (list str)))
    (acc : gmap str (list str)) :
  fold_left merge_into queue acc = merge_into acc (drain queue).
Proof.
  unfold drain. revert acc. induction queue as [|d queue IH]; intros acc.
  - simpl. by rewrite merge_into_empty.
  - simpl. rewrite IH, (IH (merge_into ∅ d)).
    by rewrite merge_into_empty_l, merge_into_assoc.
Qed.

Lemma drain_cons (d : gmap str (list str)) (queue : list (gmap str (list str))) :
  drain (d :: queue) = merge_into d (drain queue).
Proof.
  unfold drain at 1. simpl. by rewrite fold_merge_into, merge_into_empty_l.
Qed.

Lemma drain_app (queue1 queue2 : list (gmap str (list str))) :
  drain (queue1 ++ queue2) = merge_into (drain queue1) (drain queue2).
Proof.
  induction queue1 as [|d queue1 IH].
  - simpl. change (drain []) with (∅ : gmap str (list str)).
    by rewrite merge_into_empty_l.
  - rewrite <- app_comm_cons, !drain_cons, IH. by rewrite merge_into_assoc.
Qed.

Lemma drain_lookup (queue : list (gmap str (list str))) (k : str) :
  default [] (drain queue !! k)
  = concat (map (λ d, default [] (d !! k)) queue) ∧
  (is_Some (drain queue !! k) ↔ Exists (λ d, is_Some (d !! k)) queue).
Proof.
  induction queue as [|d queue [IHl IHs]].
  - change (drain []) with (∅ : gmap str (list str)). rewrite lookup_empty.
    split; [done|]. split; [by intros [? [=]]|by intros ?%Exists_nil].
  - rewrite drain_cons, lookup_merge_into, Exists_cons, <- IHs. simpl.
    rewrite <- IHl. destruct (drain queue !! k) as [p|]; simpl.
    + split; [done|]. split; [by eauto|by eauto].
    + rewrite app_nil_r. split; [done|]. split; [by eauto|].
      by intros [?|[? [=]]].
Qed.

Lemma concat_Permutation {A : Type} (l l' : list (list A)) :
  l ≡ₚ l' → concat l ≡ₚ concat l'.
Proof.
  induction 1 as [|x l l' _ IH|x y l|l l' l'' _ IH1 _ IH2]; simpl.
  - done.
  - by rewrite IH.
  - rewrite !app_assoc. f_equiv. apply Permutation_app_comm.
  - by rewrite IH1.
Qed.

(** X9.  The order in which the results reach the queue shows only in the
    order of the files in each list: two orders of the same results give
    the same keywords and, for each keyword, the same files up to order. *)
Theorem drain_order (queue queue' : list (gmap str (list str))) :
  queue ≡ₚ queue' →
  dom (drain queue) = dom (drain queue') ∧
  ∀ k, default [] (drain queue !! k) ≡ₚ default [] (drain queue' !! k).
Proof.
  intros Hperm. split.
  - apply set_eq. intros k.
    rewrite !elem_of_dom, !(proj2 (drain_lookup _ k)), !Exists_exists.
    by setoid_rewrite Hperm.
  - intros k. rewrite !(proj1 (drain_lookup _ k)).
    apply concat_Permutation. by rewrite Hperm.
Qed.

(** ** The worker, file by file *)

Lemma file_body_hits (keywords : list str) (buffer_size : Z)
    (results : gmap str (list str)) (file_path : str) :
  file_body fs keywords buffer_size results file_path
  = Return (merge_into results (file_hits fs keywords buffer_size file_path)).
Proof.
  unfold file_body, file_hits.
  destruct (bm_search fs file_path keywords buffer_size) as [d|e|] eqn:Hbm.
  - done.
  - rewrite merge_into_empty. by destruct e.
  - by apply bm_search_no_Diverge in Hbm.
Qed.

Lemma worker_drain (files keywords : list str) (buffer_size : Z) :
  search_keywords_in_files fs files keywords buffer_size
  = Return (drain (map (file_hits fs keywords buffer_size) files)).
Proof.
  unfold search_keywords_in_files, drain.
  generalize (∅ : gmap str (list str)).
  induction files as [|file files IH]; intros acc; [done|].
  simpl. rewrite file_body_hits. simpl. apply IH.
Qed.

(** X10.  The worker always returns, and its list for a keyword is the
    lists that the searches of its files return for the keyword, put end
    to end in the order of the files; a file whose search raises adds
    nothing, and a keyword is a key exactly when some file has it. *)
Theorem worker_lookup (files keywords : list str) (buffer_size : Z) :
  ∃ results,
    search_keywords_in_files fs files keywords buffer_size = Return results ∧
    ∀ k,
      default [] (results !! k)
      = concat (map (λ file,
                  match bm_search fs file keywords buffer_size with
                  | Return d => default [] (d !! k)
                  | _ => []
                  end) files) ∧
      (is_Some (results !! k) ↔
       ∃ file d, file ∈ files ∧
                 bm_search fs file keywords buffer_size = Return d ∧
                 is_Some (d !! k)).
Proof.
  eexists. split; [apply worker_drain|]. intros k.
  destruct (drain_lookup (map (file_hits fs keywords buffer_size) files) k)
    as [-> ->].
  split.
  - rewrite map_map. f_equal. apply map_ext. intros file. unfold file_hits.
    by destruct (bm_search fs file keywords buffer_size).
  - rewrite Exists_exists. split.
    + intros (d & (file & -> & Hin)%list_elem_of_fmap & Hk).
      unfold file_hits in Hk.
      destruct (bm_search fs file keywords buffer_size) as [d| |] eqn:Hbm;
        [by eauto|by destruct Hk as [? [=]]..].
    + intros (file & d & Hin & Hbm & Hk).
      exists d. split; [|done]. apply list_elem_of_fmap. exists file.
      split; [|done]. unfold file_hits. by rewrite Hbm.
Qed.

(** X11.  The worker on two slices one after the other returns the merge
    of what it returns on each. *)
Theorem worker_app (files1 files2 keywords : list str) (buffer_size : Z) :
  ∃ results1 results2,
    search_keywords_in_files fs files1 keywords buffer_size = Return results1 ∧
    search_keywords_in_files fs files2 keywords buffer_size = Return results2 ∧
    search_keywords_in_files fs (files1 ++ files2) keywords buffer_size
    = Return (merge_into results1 results2).
Proof.
  eexists _, _. split_and!; [apply worker_drain..|].
  by rewrite worker_drain, map_app, drain_app.
Qed.

(** C6.  A file that cannot be opened or read is caught by the worker:
    the body of its loop returns the results unchanged, the worker goes on
    with the files that follow, and what it returns is what it returns
    without that file, namely, for each keyword, the hits of the other
    files in their order; no entry of its result is that file.  Nothing is
    raised out of the processes either: every worker runs to its end, and
    the coordinator returns or waits in its joins. *)
Theorem worker_skips_unreadable (files1 files2 : list str) (bad : str)
    (e : exn) (keywords : list str) (buffer_size : Z)
    (pickled_size : gmap str (list str) → nat) (pipe_capacity : nat) :
  fs bad = Unreadable e →
  (∀ results,
     file_body fs keywords buffer_size results bad = Return results) ∧
  (∃ results,
     search_keywords_in_files fs (files1 ++ bad :: files2) keywords buffer_size
     = Return results ∧
     search_keywords_in_files fs (files1 ++ files2) keywords buffer_size
     = Return results ∧
     (∀ k l, results !! k = Some l → bad ∉ l) ∧
     (∀ k, default [] (results !! k)
           = concat (map (λ file,
                       match bm_search fs file keywords buffer_size with
                       | Return d => default [] (d !! k)
                       | _ => []
                       end) (files1 ++ files2))) ∧
     (∀ file d k, file ∈ files1 ++ files2 →
        bm_search fs file keywords buffer_size = Return d →
        is_Some (d !! k) → is_Some (results !! k))) ∧
  (∀ slices,
     (∃ partials,
        start_processes fs slices keywords buffer_size = Return partials) ∧
     ∀ e', run_processes fs pickled_size pipe_capacity slices keywords
             buffer_size ≠ Raise e').
Proof.
  intros Hbad. split_and!.
  - intros results. by eapply file_body_unreadable.
  - assert (Hsame : search_keywords_in_files fs (files1 ++ bad :: files2)
                      keywords buffer_size
                    = search_keywords_in_files fs (files1 ++ files2)
                        keywords buffer_size).
    { unfold search_keywords_in_files. rewrite !for_each_app.
      destruct (for_each _ ∅ files1) as [s| |]; [|done..]. simpl.
      by rewrite (file_body_unreadable _ _ _ _ _ e). }
    exists (drain (map (file_hits fs keywords buffer_size) (files1 ++ files2))).
    rewrite Hsame, worker_drain.
    split_and!; [done|done| | |].
    + intros k l Hk Hin.
      destruct (worker_loop_entries fs keywords buffer_size
                  (files1 ++ files2) ∅
                  (drain (map (file_hits fs keywords buffer_size)
                            (files1 ++ files2))))
        with (k := k) (l := l) (x := bad) as [content Hcontent];
        [|apply worker_drain|done..|congruence].
      intros k' l' x. by rewrite lookup_empty.
    + intros k.
      rewrite (proj1 (drain_lookup _ k)), map_map. f_equal.
      apply map_ext. intros file. unfold file_hits.
      by destruct (bm_search fs file keywords buffer_size).
    + intros file d k Hin Hbm Hk.
      apply (proj2 (drain_lookup _ k)), Exists_exists.
      exists d. split; [|done]. apply list_elem_of_fmap. exists file.
      split; [|done]. unfold file_hits. by rewrite Hbm.
  - intros slices. split; [apply start_processes_total|].
    intros e'. apply run_processes_no_Raise.
Qed.

(** ** The coordinator against one worker *)

Variable cpu_count : nat.
Variable pickled_size : gmap str (list str) → nat.
Variable pipe_capacity : nat.







(** X13.  The sizes of the slices: every slice but the last has
    [len(files) // num_processes] files, the last has that many and the
    remainder of the division; so with more processes than files every
    process but the last gets no file and the last gets them all. *)
Theorem process_slices_sizes (files : list str) (num_processes : nat)
    (slices : list (list str)) :
  process_slices files num_processes = Return slices →
  (∀ i s, i < num_processes - 1 → slices !! i = Some s →
     length s = length files `div` num_processes) ∧
  (∀ s, slices !! (num_processes - 1) = Some s →
     length s = length files `div` num_processes
                + length files `mod` num_processes) ∧
  (length files < num_processes →
   slices = replicate (num_processes - 1) [] ++ [files]).
Proof.
  destruct num_processes as [|m]; [done|].
  pose proof (process_slices_pos files m) as Hpos. cbv zeta in Hpos.
  pose proof (Nat.div_mod (length files) (S m)) as Hdiv.
  pose proof (Nat.div_small (length files) (S m)) as Hsmall.
  pose proof (Nat.mod_upper_bound (length files) (S m)) as Hmod.
  remember (length files `div` S m) as chunk_size eqn:Hcs in *.
  clear Hcs. rewrite Hpos. clear Hpos. intros [= <-].
  replace (S m - 1) with m by lia.
  assert (Hlen : length (map (λ i, take chunk_size
                                     (drop (i * chunk_size) files)) (seq 0 m))
                 = m) by (by rewrite length_map, length_seq).
  split_and!.
  - intros i s Hi. rewrite lookup_app_l by lia.
    rewrite list_lookup_fmap, lookup_seq_lt by done. intros [= <-].
    rewrite length_take, length_drop. nia.
  - intros s. rewrite lookup_app_r by lia. rewrite Hlen, Nat.sub_diag.
    intros [= <-]. rewrite length_drop. nia.
  - intros Hfew. rewrite (Hsmall Hfew). f_equal.
    + erewrite map_ext by (intros i; by rewrite take_0).
      by rewrite map_const, length_seq.
    + by rewrite Nat.mul_0_r.
Qed.

End Further.

(** ** Listing the directory *)

Section Listing.

Context {char : Type} `{EqDecision char}.

Variable sep : char.
Variable listdir : list char → listing char.

(** A joined path ends with its second component. *)
Lemma path_join_suffix (a b : list char) : b `suffix_of` path_join sep a b.
Proof.
  unfold path_join. destruct (startswith b [sep]); [done|].
  destruct (_ || _).
  - by apply suffix_app_r.
  - apply (suffix_app_r b (sep :: b) a). by apply suffix_cons_r.
Qed.

(** A relative second component is appended to the first. *)
Lemma path_join_relative (a b : list char) :
  ¬ [sep] `prefix_of` b →
  path_join sep a b
  = a ++ (if bool_decide (a = []) || endswith a [sep] then [] else [sep]) ++ b.
Proof.
  intros Hrel. unfold path_join, startswith.
  rewrite bool_decide_eq_false_2 by done. by destruct (_ || _).
Qed.

Lemma endswith_true (s suffix : list char) :
  endswith s suffix = true ↔ suffix `suffix_of` s.
Proof. unfold endswith. apply bool_decide_eq_true. Qed.

(** Every path returned ends with the extension. *)
Lemma get_files_suffix (directory extension p : list char) :
  p ∈ get_files_from_directory sep listdir directory extension →
  extension `suffix_of` p.
Proof.
  unfold get_files_from_directory.
  destruct (listdir directory) as [names|e].
  - intros (name & -> & [Hext _]%list_elem_of_filter)%list_elem_of_fmap.
    apply endswith_true in Hext.
    etrans; [done|]. apply path_join_suffix.
  - by destruct e; intros ?%elem_of_nil.
Qed.

(** X14.  [get_files_from_directory] raises nothing: a directory that
    cannot be listed gives the empty list.  Every path it returns ends
    with the extension, and it returns one path for each entry that ends
    with the extension, in the order of the listing. *)
Theorem get_files_from_directory_extension (directory extension : list char) :
  (∀ e, listdir directory = NotListed e →
     get_files_from_directory sep listdir directory extension = []) ∧
  (∀ p, p ∈ get_files_from_directory sep listdir directory extension →
     extension `suffix_of` p) ∧
  (∀ names : list (list char), listdir directory = Entries names →
     length (get_files_from_directory sep listdir directory extension)
     = length (filter (λ name, extension `suffix_of` name) names) ∧
     ∀ i p, get_files_from_directory sep listdir directory extension !! i
            = Some p →
       ∃ name, filter (λ name, extension `suffix_of` name) names !! i
               = Some name ∧
               name `suffix_of` p).
Proof.
  assert (Hfilter : ∀ names : list (list char),
            filter (λ f, endswith f extension = true) names
            = filter (λ name, extension `suffix_of` name) names).
  { intros names. apply list_filter_iff. intros x. apply endswith_true. }
  split_and!.
  - unfold get_files_from_directory. intros e ->. by destruct e.
  - intros p. apply get_files_suffix.
  - unfold get_files_from_directory. intros names ->. rewrite Hfilter. split; [by rewrite length_map|].
    intros i p. rewrite list_lookup_fmap.
    destruct (filter _ names !! i) as [name|]; [|done].
    intros [= <-]. exists name. split; [done|]. apply path_join_suffix.
Qed.

(** X15.  When no entry of the listing starts with the separator (the
    entries of a directory are bare names), every path returned starts
    with the directory, and distinct entries give distinct paths, so no
    file is handed to the search twice. *)
Theorem get_files_from_directory_distinct (directory extension : list char)
    (names : list (list char)) :
  listdir directory = Entries names →
  (∀ name, name ∈ names → ¬ [sep] `prefix_of` name) →
  (∀ p, p ∈ get_files_from_directory sep listdir directory extension →
     directory `prefix_of` p) ∧
  (NoDup names →
   NoDup (get_files_from_directory sep listdir directory extension)).
Proof.
  intros Hlist Hrel. unfold get_files_from_directory. rewrite Hlist. split.
  - intros p (name & -> & [_ Hin]%list_elem_of_filter)%list_elem_of_fmap.
    rewrite path_join_relative by (by apply Hrel). by eexists.
  - intros Hnd. apply NoDup_fmap_2_strong; [|by apply NoDup_filter].
    intros x y [_ Hx]%list_elem_of_filter [_ Hy]%list_elem_of_filter.
    rewrite !path_join_relative by (by apply Hrel).
    intros Heq%app_inv_head. by apply app_inv_head in Heq.
Qed.

End Listing.

(** ** The script *)


(** * The further properties on the corpus *)

(** X1 on the file read eight characters at a time. *)
Lemma read_all_chunks_witness :
  (0 < 8)%Z ∧
  read_all 8 (text "xxxxxxhelloxxxxx") !! 1
  = Some (take 8 (drop (1 * 8) (text "xxxxxxhelloxxxxx"))) ∧
  concat (read_all 8 (text "xxxxxxhelloxxxxx")) = text "xxxxxxhelloxxxxx" ∧
  length (read_all 8 (text "xxxxxxhelloxxxxx")) * 8
  < length (text "xxxxxxhelloxxxxx") + 8.
Proof.
  assert (HB : (0 < 8)%Z) by lia.
  destruct (read_all_chunks 8 (text "xxxxxxhelloxxxxx") HB)
    as (Hlookup & Hconcat & _ & _ & Hcount).
  split; [exact HB|]. split; [exact (Hlookup 1)|].
  split; [exact Hconcat|exact Hcount].
Defined.

(** X2 on a line of prose and two keywords, one of which it has. *)
Lemma bm_search_sound_witness :
  bm_search corpus (text "a.txt") [text "book"; text "life"] 4096
  = Return {[ text "book" := [text "a.txt"] ]} ∧
  ({[ text "book" := [text "a.txt"] ]} : gmap (list ascii) (list (list ascii)))
    !! text "book" = Some [text "a.txt"] ∧
  text "book" ∈ [text "book"; text "life"] ∧
  ∃ content,
    corpus (text "a.txt") = Readable content ∧ substring (text "book") content.
Proof.
  assert (Hd : bm_search corpus (text "a.txt") [text "book"; text "life"] 4096
               = Return {[ text "book" := [text "a.txt"] ]}) by evaluate.
  assert (Hk : ({[ text "book" := [text "a.txt"] ]}
                : gmap (list ascii) (list (list ascii))) !! text "book"
               = Some [text "a.txt"]) by evaluate.
  destruct (bm_search_sound corpus _ _ _ _ _ _ Hd Hk)
    as (Hin & _ & _ & Hsub).
  by split_and!.
Defined.

(** X3 on the file in which the keyword occurs in both chunks. *)
Lemma bm_search_count_witness :
  corpus (text "d.txt") = Readable (text "abab") ∧
  Forall (λ p, p ≠ []) [text "ab"] ∧
  ∃ d, bm_search corpus (text "d.txt") [text "ab"] 2 = Return d ∧
       default [] (d !! text "ab")
       = replicate (occurrences (text "ab") [text "ab"]
                    * hits (text "ab") (read_all 2 (text "abab")))
                   (text "d.txt").
Proof.
  assert (Hall : Forall (λ p, p ≠ []) [text "ab"]) by (by repeat constructor).
  destruct (bm_search_count corpus (text "d.txt") (text "abab") 2
              [text "ab"] eq_refl Hall) as (d & Hd & Hk).
  split_and!; [done|exact Hall|].
  exists d. split; [done|]. apply Hk.
Defined.

(** X4 on a line of prose that fits in the buffer. *)
Lemma bm_search_fits_witness :
  corpus (text "a.txt") = Readable (text "the book is here") ∧
  Forall (λ p, p ≠ []) [text "book"; text "life"] ∧
  (4096 < 0 ∨ Z.of_nat (length (text "the book is here")) ≤ 4096)%Z ∧
  ∃ d, bm_search corpus (text "a.txt") [text "book"; text "life"] 4096
       = Return d ∧
       (is_Some (d !! text "life") ↔
        text "life" ∈ [text "book"; text "life"] ∧
        substring (text "life") (text "the book is here")).
Proof.
  assert (Hall : Forall (λ p, p ≠ []) [text "book"; text "life"])
    by (by repeat constructor).
  assert (Hlen : (4096 < 0
                  ∨ Z.of_nat (length (text "the book is here")) ≤ 4096)%Z)
    by (right; simpl; lia).
  destruct (bm_search_fits corpus (text "a.txt") (text "the book is here")
              4096 [text "book"; text "life"] eq_refl Hall Hlen)
    as (d & Hd & Hk).
  split_and!; [done|exact Hall|exact Hlen|].
  exists d. split; [done|]. apply Hk.
Defined.

(** X5 on two keywords listed in both orders. *)
Lemma bm_search_keyword_order_witness :
  corpus (text "a.txt") = Readable (text "the book is here") ∧
  Forall (λ p, p ≠ []) [text "book"; text "the"] ∧
  [text "book"; text "the"] ≡ₚ [text "the"; text "book"] ∧
  ∃ d, bm_search corpus (text "a.txt") [text "book"; text "the"] 4096
       = Return d ∧
       bm_search corpus (text "a.txt") [text "the"; text "book"] 4096
       = Return d.
Proof.
  assert (Hall : Forall (λ p, p ≠ []) [text "book"; text "the"])
    by (by repeat constructor).
  assert (Hperm : [text "book"; text "the"] ≡ₚ [text "the"; text "book"])
    by apply Permutation_swap.
  split_and!; [done|exact Hall|exact Hperm|].
  exact (bm_search_keyword_order corpus (text "a.txt")
           (text "the book is here") 4096 _ _ eq_refl Hall Hperm).
Defined.


(** X7 on two results with one keyword in common. *)
Lemma merge_into_spec_witness :
  ({[ text "book" := [text "b.txt"] ]} : gmap (list ascii) (list (list ascii)))
    !! text "book" = Some [text "b.txt"] ∧
  ({[ text "book" := [text "b.txt"] ]} : gmap (list ascii) (list (list ascii)))
    !! text "life" = None ∧
  merge_into {[ text "book" := [text "a.txt"]; text "life" := [text "c.txt"] ]}
    {[ text "book" := [text "b.txt"] ]} !! text "book"
  = Some [text "a.txt"; text "b.txt"] ∧
  merge_into {[ text "book" := [text "a.txt"]; text "life" := [text "c.txt"] ]}
    {[ text "book" := [text "b.txt"] ]} !! text "life"
  = Some [text "c.txt"].
Proof.
  assert (Hbook : ({[ text "book" := [text "b.txt"] ]}
                   : gmap (list ascii) (list (list ascii))) !! text "book"
                  = Some [text "b.txt"]) by evaluate.
  assert (Hlife : ({[ text "book" := [text "b.txt"] ]}
                   : gmap (list ascii) (list (list ascii))) !! text "life"
                  = None) by evaluate.
  destruct (merge_into_spec
              ({[ text "book" := [text "a.txt"];
                  text "life" := [text "c.txt"] ]}
               : gmap (list ascii) (list (list ascii)))
              {[ text "book" := [text "b.txt"] ]}) as (Hsome & Hnone & _).
  split_and!; [exact Hbook|exact Hlife| |].
  - rewrite (Hsome _ _ Hbook). evaluate.
  - rewrite (Hnone _ Hlife). evaluate.
Defined.

(** X9 on two results that reach the queue in either order. *)
Lemma drain_order_witness :
  [ ({[ text "book" := [text "a.txt"] ]}
     : gmap (list ascii) (list (list ascii)));
    {[ text "book" := [text "b.txt"] ]} ]
  ≡ₚ [ {[ text "book" := [text "b.txt"] ]};
       {[ text "book" := [text "a.txt"] ]} ] ∧
  default [] (drain [ ({[ text "book" := [text "a.txt"] ]}
                       : gmap (list ascii) (list (list ascii)));
                      {[ text "book" := [text "b.txt"] ]} ] !! text "book")
  ≡ₚ default [] (drain [ ({[ text "book" := [text "b.txt"] ]}
                          : gmap (list ascii) (list (list ascii)));
                         {[ text "book" := [text "a.txt"] ]} ] !! text "book").
Proof.
  assert (Hperm : [ ({[ text "book" := [text "a.txt"] ]}
                     : gmap (list ascii) (list (list ascii)));
                    {[ text "book" := [text "b.txt"] ]} ]
                  ≡ₚ [ {[ text "book" := [text "b.txt"] ]};
                       {[ text "book" := [text "a.txt"] ]} ])
    by apply Permutation_swap.
  split; [exact Hperm|].
  exact (proj2 (drain_order _ _ Hperm) (text "book")).
Defined.

(** C6 on a slice whose second file does not exist. *)
Lemma worker_skips_unreadable_witness :
  corpus (text "missing.txt") = Unreadable FileNotFoundError ∧
  search_keywords_in_files corpus
    [text "a.txt"; text "missing.txt"; text "b.txt"]
    [text "book"; text "summer"; text "life"] 4096
  = Return {[ text "book" := [text "a.txt"];
              text "summer" := [text "b.txt"] ]} ∧
  search_keywords_in_files corpus [text "a.txt"; text "b.txt"]
    [text "book"; text "summer"; text "life"] 4096
  = Return {[ text "book" := [text "a.txt"];
              text "summer" := [text "b.txt"] ]} ∧
  (∀ k l,
     ({[ text "book" := [text "a.txt"]; text "summer" := [text "b.txt"] ]}
      : gmap (list ascii) (list (list ascii))) !! k = Some l →
     text "missing.txt" ∉ l) ∧
  ∀ e', run_processes corpus pickle 100
          [[text "a.txt"; text "missing.txt"]; [text "b.txt"]]
          [text "book"; text "summer"; text "life"] 4096 ≠ Raise e'.
Proof.
  destruct (worker_skips_unreadable corpus [text "a.txt"] [text "b.txt"]
              (text "missing.txt") FileNotFoundError
              [text "book"; text "summer"; text "life"] 4096 pickle 100
              eq_refl)
    as (_ & (results & Hwith & Hwithout & Hnot & _) & Htop).
  assert (Hresults : search_keywords_in_files corpus
                       [text "a.txt"; text "missing.txt"; text "b.txt"]
                       [text "book"; text "summer"; text "life"] 4096
                     = Return {[ text "book" := [text "a.txt"];
                                 text "summer" := [text "b.txt"] ]})
    by evaluate.
  assert (Heq : Return results
                = Return ({[ text "book" := [text "a.txt"];
                             text "summer" := [text "b.txt"] ]}
                          : gmap (list ascii) (list (list ascii))))
    by (rewrite <- Hwith; exact Hresults).
  injection Heq as ->.
  split; [reflexivity|]. split; [exact Hwith|]. split; [exact Hwithout|].
  split; [exact Hnot|].
  exact (proj2 (Htop [[text "a.txt"; text "missing.txt"]; [text "b.txt"]])).
Defined.


(** X13 on two files and five processes. *)
Lemma process_slices_sizes_witness :
  process_slices [text "a.txt"; text "b.txt"] 5
  = Return [[]; []; []; []; [text "a.txt"; text "b.txt"]] ∧
  length [text "a.txt"; text "b.txt"] < 5 ∧
  [[]; []; []; []; [text "a.txt"; text "b.txt"]]
  = replicate (5 - 1) [] ++ [[text "a.txt"; text "b.txt"]].
Proof.
  assert (Hslices : process_slices [text "a.txt"; text "b.txt"] 5
                    = Return [[]; []; []; []; [text "a.txt"; text "b.txt"]])
    by done.
  assert (Hfew : length [text "a.txt"; text "b.txt"] < 5) by (simpl; lia).
  destruct (process_slices_sizes _ _ _ Hslices) as (_ & _ & Hall).
  split_and!; [exact Hslices|exact Hfew|exact (Hall Hfew)].
Defined.

(** X14 on a directory of four entries and on one that does not exist. *)
Lemma get_files_from_directory_extension_witness :
  shelf (text "./nowhere") = NotListed FileNotFoundError ∧
  get_files_from_directory "/"%char shelf (text "./nowhere") (text ".txt")
  = [] ∧
  text "./faker_files/b.txt"
  ∈ get_files_from_directory "/"%char shelf (text "./faker_files")
      (text ".txt") ∧
  text ".txt" `suffix_of` text "./faker_files/b.txt" ∧
  shelf (text "./faker_files")
  = Entries [text "a.txt"; text "notes.md"; text "b.txt"; text "c.txt"] ∧
  length (get_files_from_directory "/"%char shelf (text "./faker_files")
            (text ".txt"))
  = length (filter (λ name, text ".txt" `suffix_of` name)
              [text "a.txt"; text "notes.md"; text "b.txt"; text "c.txt"]).
Proof.
  assert (Hin : text "./faker_files/b.txt"
                ∈ get_files_from_directory "/"%char shelf
                    (text "./faker_files") (text ".txt"))
    by (right; left).
  destruct (get_files_from_directory_extension "/"%char shelf
              (text "./nowhere") (text ".txt")) as (Hfail & _ & _).
  destruct (get_files_from_directory_extension "/"%char shelf
              (text "./faker_files") (text ".txt")) as (_ & Hext & Hlist).
  split_and!; [done|exact (Hfail _ eq_refl)|exact Hin|exact (Hext _ Hin)|done|].
  exact (proj1 (Hlist _ eq_refl)).
Defined.

(** X15 on the same directory. *)
Lemma get_files_from_directory_distinct_witness :
  shelf (text "./faker_files")
  = Entries [text "a.txt"; text "notes.md"; text "b.txt"; text "c.txt"] ∧
  (∀ name, name ∈ [text "a.txt"; text "notes.md"; text "b.txt"; text "c.txt"] →
           ¬ ["/"%char] `prefix_of` name) ∧
  NoDup [text "a.txt"; text "notes.md"; text "b.txt"; text "c.txt"] ∧
  NoDup (get_files_from_directory "/"%char shelf (text "./faker_files")
           (text ".txt")).
Proof.
  assert (Hrel : ∀ name,
            name ∈ [text "a.txt"; text "notes.md"; text "b.txt"; text "c.txt"] →
            ¬ ["/"%char] `prefix_of` name).
  { intros name Hin [k Hk].
    repeat (apply elem_of_cons in Hin as [->|Hin]; [discriminate Hk|]).
    by apply elem_of_nil in Hin. }
  assert (Hnd : NoDup [text "a.txt"; text "notes.md"; text "b.txt";
                       text "c.txt"])
    by (apply (bool_decide_eq_true_1
                 (NoDup [text "a.txt"; text "notes.md"; text "b.txt";
                         text "c.txt"]));
        evaluate).
  destruct (get_files_from_directory_distinct "/"%char shelf
              (text "./faker_files") (text ".txt") _ eq_refl Hrel)
    as [_ Hdistinct].
  split_and!; [done|exact Hrel|exact Hnd|exact (Hdistinct Hnd)].
Defined.

